(** * STREUSLE tagger: the constraint engine of [streusle_tagger.py]

    A shallow embedding of the pure, combinatorial part of
    [streusle_tagger/models/streusle_tagger.py]: the boundary-role
    transition predicate, the construction of the transition list handed
    to the CRF, the UPOS/lexcat compatibility table, the per-UPOS label
    masks built by [StreusleTagger.__init__], and the two methods that
    consume them ([get_upos_constraint_mask] and [forward]).  The
    remaining methods of the model that compute on data of this
    repository are embedded as well: [decode], the class probabilities
    that [forward] builds for the metrics, and [_json_to_instance] of
    the predictor.

    Python strings are [string]; Python exceptions are the [Raise] branch
    of a small result monad; a [dict] whose iteration order is observable
    is an association list, a [dict] or [set] that is only looked up is a
    [gmap] or [gset]. *)

From Stdlib Require Import Ascii String QArith.
From stdpp Require Import gmap strings list fin_maps.

#[local] Set Warnings "-clear-no-such-hyp".

Local Open Scope string_scope.
Local Open Scope Z_scope.

(** ** Exceptions and the result monad *)

Inductive exn : Type :=
  | ValueError (msg : string)
  | KeyError (key : string)
  | AttributeError (attr : string)
  | IndexError (msg : string)
  | RuntimeError (msg : string)
  | TypeError (msg : string)
  | UnboundLocalError (name : string).

Inductive result (A : Type) : Type :=
  | Return (a : A)
  | Raise (e : exn).

Arguments Return {A} a.
Arguments Raise {A} e.

#[global] Instance result_ret : MRet result := λ A a, Return a.

#[global] Instance result_bind : MBind result := λ A B k m,
  match m with
  | Return a => k a
  | Raise e => Raise e
  end.

Definition returns {A : Type} (m : result A) : Prop := ∃ a, m = Return a.
Definition raises {A : Type} (m : result A) : Prop := ∃ e, m = Raise e.

(** ** Python string and sequence primitives *)

Module Py.

(** [s in (t1, ..., tn)] for a tuple of strings. *)
Definition elem (s : string) (t : list string) : bool :=
  existsb (String.eqb s) t.

(** [any([...])]. *)
Definition any (bs : list bool) : bool := existsb id bs.

(** [s.split(sep)] for a one-character separator: never empty. *)
Fixpoint split (sep : ascii) (s : string) : list string :=
  match s with
  | EmptyString => [EmptyString]
  | String c rest =>
      if Ascii.eqb c sep then EmptyString :: split sep rest
      else match split sep rest with
           | [] => [String c EmptyString]
           | w :: ws => String c w :: ws
           end
  end.

(** [l[i]] for a non-negative literal index. *)
Definition getitem {A : Type} (l : list A) (i : nat) : result A :=
  match l !! i with
  | Some a => Return a
  | None => Raise (IndexError "list index out of range")
  end.

(** [s.startswith(p)]. *)
Definition startswith (s p : string) : bool := String.prefix p s.

(** Some suffix of [s], [s] itself included, is [p]. *)
Fixpoint endswith (s p : string) : bool :=
  String.eqb s p
  || match s with
     | EmptyString => false
     | String _ rest => endswith rest p
     end.

(** ["... {}".format(s)] with the braces last. *)
Definition format (template s : string) : string := template +:+ s.

End Py.

(** ** The role-transition predicate (source lines 395-442) *)

Definition VALID_TAGS : list string :=
  ["O"; "B"; "I_"; "I~"; "o"; "b"; "i_"; "i~"; "START"; "END"].

Definition is_streusle_transition_allowed (from_tag to_tag : string)
  : result bool :=
  if negb (Py.elem from_tag VALID_TAGS) then
    Raise (ValueError (Py.format "Got invalid from_tag " from_tag))
  else if negb (Py.elem to_tag VALID_TAGS) then
    Raise (ValueError (Py.format "Got invalid to_tag " to_tag))
  else if String.eqb to_tag "START" || String.eqb from_tag "END" then
    Return false
  else if String.eqb from_tag "START" then
    Return (Py.elem to_tag ["O"; "B"])
  else if String.eqb to_tag "END" then
    Return (Py.elem from_tag ["O"; "I_"; "I~"])
  else
    Return (Py.any [
      Py.elem from_tag ["B"; "o"] && Py.elem to_tag ["o"; "b"; "I_"; "I~"];
      Py.elem from_tag ["b"] && Py.elem to_tag ["i_"; "i~"];
      Py.elem from_tag ["O"] && Py.elem to_tag ["O"; "B"];
      Py.elem from_tag ["I_"; "I~"] && negb (Py.elem to_tag ["i_"; "i~"]);
      Py.elem from_tag ["i_"; "i~"] && negb (Py.elem to_tag ["O"; "B"])
    ]).

(** ** The grammar as the specification words it *)

Definition ROLES : list string :=
  ["O"; "o"; "B"; "b"; "I_"; "i_"; "I~"; "i~"].

Definition CLOSED_SET : list string := (ROLES ++ ["START"; "END"])%list.

(** The case list of the specification's role-transition predicate,
    written as a proposition over membership in the listed sets. *)
Definition grammar_permits (from_tag to_tag : string) : Prop :=
  if decide (to_tag = "START" ∨ from_tag = "END") then False
  else if decide (from_tag = "START") then to_tag ∈ ["O"; "B"]
  else if decide (to_tag = "END") then from_tag ∈ ["O"; "I_"; "I~"]
  else (from_tag ∈ ["B"; "o"] ∧ to_tag ∈ ["o"; "b"; "I_"; "I~"])
     ∨ (from_tag = "b" ∧ to_tag ∈ ["i_"; "i~"])
     ∨ (from_tag = "O" ∧ to_tag ∈ ["O"; "B"])
     ∨ (from_tag ∈ ["I_"; "I~"] ∧ to_tag ∉ ["i_"; "i~"])
     ∨ (from_tag ∈ ["i_"; "i~"] ∧ to_tag ∉ ["O"; "B"]).

#[global] Instance grammar_permits_dec from_tag to_tag :
  Decision (grammar_permits from_tag to_tag).
Proof. unfold grammar_permits. repeat case_decide; apply _. Defined.

(** Consecutive pairs of a candidate role sequence. *)
Fixpoint consecutive {A : Type} (l : list A) : list (A * A) :=
  match l with
  | a :: (b :: _) as rest => (a, b) :: consecutive rest
  | _ => []
  end.

Definition valid_sequence (seq : list string) : Prop :=
  Forall (λ p, is_streusle_transition_allowed p.1 p.2 = Return true)
         (consecutive seq).

(** The involution exchanging the underscore and tilde variants. *)
Definition swap_variant (tag : string) : string :=
  if String.eqb tag "I_" then "I~"
  else if String.eqb tag "I~" then "I_"
  else if String.eqb tag "i_" then "i~"
  else if String.eqb tag "i~" then "i_"
  else tag.

(** ** Building the transition list (source lines 358-393) *)

(** A [for] loop over a list whose body may raise: the loop state is
    threaded through, the first exception ends the loop. *)
Fixpoint for_each {A S : Type} (xs : list A) (body : A → S → result S)
  (s : S) : result S :=
  match xs with
  | [] => Return s
  | x :: rest => s' ← body x s; for_each rest body s'
  end.

(** Lines 382-385 and 387-390: the role of a label. *)
Definition tag_of (label : string) : result string :=
  if Py.elem label ["START"; "END"] then Return label
  else Py.getitem (Py.split "-"%char label) 0.

(** [labels.items()] is kept as the association list of the dict, in
    iteration order; [len(labels)] is its length. *)
Definition labels_with_boundaries (labels : list (Z * string))
  : list (Z * string) :=
  let num_labels := Z.of_nat (length labels) in
  let start_tag := num_labels in
  let end_tag := num_labels + 1 in
  (labels ++ [(start_tag, "START"); (end_tag, "END")])%list.

Definition streusle_allowed_transitions (labels : list (Z * string))
  : result (list (Z * Z)) :=
  let lwb := labels_with_boundaries labels in
  for_each lwb (λ '(from_label_index, from_label) allowed,
    from_tag ← tag_of from_label;
    for_each lwb (λ '(to_label_index, to_label) allowed,
      to_tag ← tag_of to_label;
      ok ← is_streusle_transition_allowed from_tag to_tag;
      if ok : bool
      then Return (allowed ++ [(from_label_index, to_label_index)])%list
      else Return allowed) allowed) [].

(** The first dash-delimited component of a label. *)
Definition first_component (label : string) : string :=
  default EmptyString (head (Py.split "-"%char label)).

(** The index given to START and the index given to END. *)
Definition start_index (labels : list (Z * string)) : Z :=
  Z.of_nat (length labels).

Definition end_index (labels : list (Z * string)) : Z :=
  Z.of_nat (length labels) + 1.

(** The role standing at an entry of the augmented alphabet. *)
Definition role_of (label : string) : string :=
  if Py.elem label ["START"; "END"] then label else first_component label.

(** The pairs the specification asks for: the cross product of the
    augmented alphabet, filtered by the role-transition predicate. *)
Definition permitted_pair (labels : list (Z * string)) (i j : Z) : Prop :=
  ∃ from_label to_label : string,
    (i, from_label) ∈ labels_with_boundaries labels
    ∧ (j, to_label) ∈ labels_with_boundaries labels
    ∧ is_streusle_transition_allowed (role_of from_label) (role_of to_label)
      = Return true.

(** Every label decomposes to one of the eight roles. *)
Definition roles_well_formed (labels : list (Z * string)) : Prop :=
  ∀ i label, (i, label) ∈ labels → first_component label ∈ ROLES.

(** The error of [is_streusle_transition_allowed] for a role of [labels]
    outside the closed set, naming the role and the side it stood on. *)
Definition invalid_role_error (labels : list (Z * string)) (e : exn) : Prop :=
  ∃ i label,
    (i, label) ∈ labels ∧ (role_of label ∉ VALID_TAGS)
    ∧ (e = ValueError ("Got invalid from_tag " +:+ role_of label)
       ∨ e = ValueError ("Got invalid to_tag " +:+ role_of label)).

(** The list comprehension the two nested loops amount to when no call
    raises: same pairs, same order, same multiplicity. *)
Definition transition_ok (from_tag to_tag : string) : bool :=
  match is_streusle_transition_allowed from_tag to_tag with
  | Return ok => ok
  | Raise _ => false
  end.

Definition transitions_from (labels : list (Z * string))
    (from_entry : Z * string) : list (Z * Z) :=
  labels_with_boundaries labels ≫= λ to_entry,
    if transition_ok (role_of from_entry.2) (role_of to_entry.2)
    then [(from_entry.1, to_entry.1)] else [].

Definition transitions_comprehension (labels : list (Z * string))
  : list (Z * Z) :=
  labels_with_boundaries labels ≫= transitions_from labels.

(** No label of the dict sits on the index given to START or to END;
    the index-to-token mapping of a vocabulary, with keys
    [0 .. num_labels - 1], is of this kind. *)
Definition boundary_indices_free (labels : list (Z * string)) : Prop :=
  ∀ i label, (i, label) ∈ labels →
             i ≠ start_index labels ∧ i ≠ end_index labels.

(** ** The UPOS/lexcat compatibility table (source lines 18-22, 312-356) *)

(** The two vocabularies are Python sets; they are listed in the order of
    the source literals.  What is built from them is a dict of sets, so
    the order in which Python iterates over them is not observable. *)
Definition ALL_UPOS : list string :=
  ["X"; "INTJ"; "VERB"; "ADV"; "CCONJ"; "PUNCT"; "ADP";
   "NOUN"; "SYM"; "ADJ"; "PROPN"; "DET"; "PART"; "PRON"; "SCONJ"; "NUM";
   "AUX"].

Definition ALL_LEXCATS : list string :=
  ["N"; "INTJ"; "INF.P"; "V"; "AUX"; "PP"; "PUNCT";
   "POSS"; "X"; "PRON.POSS"; "SYM"; "PRON"; "SCONJ";
   "NUM"; "DISC"; "ADV"; "CCONJ"; "P"; "ADJ"; "DET"; "INF"].

(** The set literal of lines 319-322. *)
Definition KNOWN_EQUIVALENCES : list (string * string) :=
  [("NOUN", "N"); ("PROPN", "N"); ("VERB", "V");
   ("ADP", "P"); ("ADV", "P"); ("SCONJ", "P");
   ("ADP", "DISC"); ("ADV", "DISC"); ("SCONJ", "DISC");
   ("PART", "POSS")].

(** [(a, b) in {...}] for a set of pairs of strings. *)
Definition pair_elem (p : string * string) (t : list (string * string))
  : bool :=
  existsb (λ q, String.eqb p.1 q.1 && String.eqb p.2 q.2) t.

(** The local function [is_allowed]; [mismatch_ok] is the variable the
    three [if] statements of lines 325-339 may set. *)
Definition is_allowed (upos lexcat : string) : bool :=
  if Py.endswith lexcat "!@" then true
  else if String.eqb upos lexcat then true
  else if pair_elem (upos, lexcat) KNOWN_EQUIVALENCES then true
  else
    let mismatch_ok := false in
    let mismatch_ok :=
      if Py.startswith lexcat "INF" then
        if String.eqb upos "SCONJ" then true else mismatch_ok
      else mismatch_ok in
    let mismatch_ok :=
      if String.eqb upos "PRON" then
        if Py.elem lexcat ["PRON"; "PRON.POSS"] then true else mismatch_ok
      else mismatch_ok in
    let mismatch_ok :=
      if String.eqb lexcat "ADV" then
        if Py.elem upos ["ADV"; "PART"] then true else mismatch_ok
      else mismatch_ok in
    mismatch_ok.

(** Lines 348-351: one round of the inner loop.  The entry is created
    empty when the key is new, then the lexcat is added to it. *)
Definition add_combination (lexcat : string)
    (allowed_combinations : gmap string (gset string))
    (universal_pos : string) : gmap string (gset string) :=
  if is_allowed universal_pos lexcat then
    let allowed_combinations :=
      if decide (allowed_combinations !! universal_pos = None)
      then <[universal_pos := ∅]> allowed_combinations
      else allowed_combinations in
    alter (λ lexcats, lexcats ∪ {[lexcat]}) universal_pos
          allowed_combinations
  else allowed_combinations.

(** Lines 345-351 over arbitrary vocabularies. *)
Definition allowed_combinations_over (lexcats uposes : list string)
  : gmap string (gset string) :=
  foldl (λ allowed_combinations lexcat,
           foldl (add_combination lexcat) allowed_combinations uposes)
        ∅ lexcats.

(** The table returned; writing it to the log (lines 352-355) does not
    change it. *)
Definition get_upos_allowed_lexcats : gmap string (gset string) :=
  allowed_combinations_over ALL_LEXCATS ALL_UPOS.

(** The compatibility conditions as the specification lists them. *)
Definition compatible (upos lexcat : string) : Prop :=
  (∃ front, lexcat = front +:+ "!@")
  ∨ upos = lexcat
  ∨ (upos, lexcat) ∈ KNOWN_EQUIVALENCES
  ∨ ((∃ back, lexcat = "INF" +:+ back) ∧ upos = "SCONJ")
  ∨ (upos = "PRON" ∧ lexcat ∈ ["PRON"; "PRON.POSS"])
  ∨ (lexcat = "ADV" ∧ upos ∈ ["ADV"; "PART"]).

(** The set a table holds for a UPOS, empty when it has no entry. *)
Definition entry (table : gmap string (gset string)) (upos : string)
  : gset string :=
  default ∅ (table !! upos).

(** ** The per-UPOS label masks (source lines 97-121) *)

(** [d[k]] on a dict with string keys. *)
Definition dict_getitem {V : Type} (d : gmap string V) (k : string)
  : result V :=
  match d !! k with
  | Some v => Return v
  | None => Raise (KeyError k)
  end.

(** [t[i] = v] on a one-dimensional tensor of size [n]: a negative index
    counts from the end, an index outside [-n, n) raises. *)
Definition tensor_setitem {A : Type} (t : list A) (i : Z) (v : A)
  : result (list A) :=
  let n := Z.of_nat (length t) in
  if bool_decide (0 ≤ i < n) then Return (<[Z.to_nat i := v]> t)
  else if bool_decide (- n ≤ i < 0) then Return (<[Z.to_nat (i + n) := v]> t)
  else Raise (IndexError "index out of range").

(** Lines 106-120, for one UPOS.  Tensor entries are floats; the only
    values written here are 0 and 1, kept as rationals. *)
Definition upos_label_mask (allowed_lexcats : gmap string (gset string))
    (labels : list (Z * string)) (upos : string) : result (list Q) :=
  let upos_label_mask := replicate (length labels) 0%Q in
  for_each labels (λ '(label_index, label) upos_label_mask,
    if Nat.eqb (length (Py.split "-"%char label)) 1 then
      tensor_setitem upos_label_mask label_index 1%Q
    else
      label_lexcat ← Py.getitem (Py.split "-"%char label) 1;
      if negb (Py.startswith label "O-") && negb (Py.startswith label "o-")
      then tensor_setitem upos_label_mask label_index 1%Q
      else
        lexcats ← dict_getitem allowed_lexcats upos;
        if bool_decide (label_lexcat ∈ lexcats)
        then tensor_setitem upos_label_mask label_index 1%Q
        else Return upos_label_mask) upos_label_mask.

(** Lines 99-121: [self._upos_to_label_mask]. *)
Definition upos_to_label_mask (labels : list (Z * string))
  : result (gmap string (list Q)) :=
  let upos_to_allowed_lexcats := get_upos_allowed_lexcats in
  for_each ALL_UPOS (λ upos masks,
    mask ← upos_label_mask upos_to_allowed_lexcats labels upos;
    Return (<[upos := mask]> masks)) ∅.

(** The second dash-delimited component of a label. *)
Definition lexcat_of (label : string) : string :=
  default EmptyString (Py.split "-"%char label !! 1%nat).

(** The admissibility rule of the specification. *)
Definition admissible (upos label : string) : Prop :=
  length (Py.split "-"%char label) = 1%nat
  ∨ ¬ ((∃ back, label = "O-" +:+ back) ∨ (∃ back, label = "o-" +:+ back))
  ∨ lexcat_of label ∈ entry get_upos_allowed_lexcats upos.

(** The labels are an index-to-token mapping: every key is an index
    into a tensor of [len(labels)] entries and no key occurs twice. *)
Definition vocabulary_indexed (labels : list (Z * string)) : Prop :=
  NoDup labels.*1
  ∧ ∀ i label, (i, label) ∈ labels → 0 ≤ i < Z.of_nat (length labels).

(** The test the three branches of lines 110-120 amount to. *)
Definition passes (allowed_lexcats : gmap string (gset string))
    (upos label : string) : bool :=
  Nat.eqb (length (Py.split "-"%char label)) 1
  || (negb (Py.startswith label "O-") && negb (Py.startswith label "o-"))
  || bool_decide (lexcat_of label ∈ entry allowed_lexcats upos).

(** ** The per-token mask of a batch (source lines 268-310) *)

(** Three-dimensional tensors are lists of lists of rows; the float
    [-1e32] is kept as the rational it denotes. *)
Definition tensor3 : Type := list (list (list Q)).

Definition SENTINEL : Q := inject_Z (- 10 ^ 32).

(** [max(xs, key=len)]: the first of the longest lists. *)
Definition max_by_len {A : Type} (xs : list (list A)) : result (list A) :=
  match xs with
  | [] => Raise (ValueError "max() arg is an empty sequence")
  | x :: rest =>
      Return (foldl (λ best y,
                       if (length best <? length y)%nat then y else best)
                    x rest)
  end.

(** [enumerate(xs)]. *)
Definition enumerate {A : Type} (xs : list A) : list (nat * A) :=
  imap (λ i x, (i, x)) xs.

(** [a, b = s] for a string [s]: a string iterates over its characters,
    and the unpacking needs exactly two of them. *)
Definition unpack_pair (s : string) : result (string * string) :=
  match s with
  | EmptyString =>
      Raise (ValueError "not enough values to unpack (expected 2, got 0)")
  | String _ EmptyString =>
      Raise (ValueError "not enough values to unpack (expected 2, got 1)")
  | String a (String b EmptyString) =>
      Return (String a EmptyString, String b EmptyString)
  | _ => Raise (ValueError "too many values to unpack (expected 2)")
  end.

(** [m[example][timestep] = row] through the view of line 301; the row
    must have the size of the last dimension. *)
Definition tensor_set_row (m : tensor3) (example_index timestep_index : nat)
    (row : list Q) (num_tags : nat) : result tensor3 :=
  if decide (length row = num_tags) then
    Return (alter (λ example, <[timestep_index := row]> example)
                  example_index m)
  else Raise (RuntimeError "shape mismatch").

(** ** The model object *)

(** An instance is its attribute dictionary; the collaborators that are
    not part of this repository (embedder, encoder, projection layer,
    CRF) are opaque handles. *)
Inductive value : Type :=
  | VNone
  | VBool (b : bool)
  | VInt (n : Z)
  | VStr (s : string)
  | VLexcats (table : gmap string (gset string))
  | VMasks (masks : gmap string (list Q))
  | VCrf (num_tags : Z) (constraints : list (Z * Z)) (start_end : bool)
  | VModule (name : string).

Definition getattr (self : gmap string value) (name : string) : result value :=
  match self !! name with
  | Some v => Return v
  | None =>
      Raise (AttributeError
               ("'StreusleTagger' object has no attribute '" +:+ name +:+ "'"))
  end.

(** Truth value of an attribute in a condition. *)
Definition truthy (v : value) : bool :=
  match v with
  | VNone => false
  | VBool b => b
  | VInt n => negb (n =? 0)
  | VStr s => negb (String.eqb s EmptyString)
  | _ => true
  end.

Definition as_masks (v : value) : result (gmap string (list Q)) :=
  match v with
  | VMasks masks => Return masks
  | _ => Raise (TypeError "object is not subscriptable")
  end.

Definition as_size (v : value) : result nat :=
  match v with
  | VInt n => Return (Z.to_nat n)
  | _ => Raise (TypeError "an integer is required")
  end.

(** [StreusleTagger.get_upos_constraint_mask].  The inner loop runs over
    [enumerate(example_upos_tags)] and unpacks every item, a UPOS
    string, into [(timestep_upos_tag, timestep_lemma)]. *)
Definition get_upos_constraint_mask (self : gmap string value)
    (batch_upos_tags batch_lemmas : list (list string)) : result tensor3 :=
  longest ← @max_by_len string batch_upos_tags;
  num_tags_attr ← getattr self "num_tags";
  num_tags ← as_size num_tags_attr;
  let upos_constraint_mask : tensor3 :=
    replicate (length batch_upos_tags)
      (replicate (length longest) (replicate num_tags (1 * SENTINEL)%Q)) in
  for_each (enumerate (zip batch_upos_tags batch_lemmas))
    (λ '(example_index, (example_upos_tags, example_lemmas))
       upos_constraint_mask,
       for_each (enumerate example_upos_tags)
         (λ '(timestep_index, item) upos_constraint_mask,
            '(timestep_upos_tag, timestep_lemma) ← unpack_pair item;
            masks_attr ← getattr self "_upos_to_label_mask";
            masks ← as_masks masks_attr;
            row ← dict_getitem masks timestep_upos_tag;
            tensor_set_row upos_constraint_mask example_index timestep_index
                           row num_tags)
         upos_constraint_mask)
    upos_constraint_mask.

(** [StreusleTagger.__init__], as far as it sets attributes (lines
    71-126).  [labels] is the index-to-token mapping of the vocabulary.
    The attributes set by the base classes ([Model], [torch.nn.Module])
    are not listed: they are not named in this file. *)
Definition init (labels : list (Z * string)) (label_namespace : string)
    (use_upos_constraints include_start_end_transitions : bool)
  : result (gmap string value) :=
  let self : gmap string value := ∅ in
  let self := <["label_namespace" := VStr label_namespace]> self in
  let self := <["text_field_embedder" := VModule "text_field_embedder"]> self in
  let self := <["num_tags" := VInt (Z.of_nat (length labels))]> self in
  let self := <["encoder" := VModule "encoder"]> self in
  let self := <["dropout" := VNone]> self in
  let self := <["feedforward" := VNone]> self in
  let self := <["tag_projection_layer" := VModule "tag_projection_layer"]> self in
  let self := <["_label_namespace" := VStr label_namespace]> self in
  constraints ← streusle_allowed_transitions labels;
  let self := <["use_upos_constraints" := VBool use_upos_constraints]> self in
  self ← (if use_upos_constraints then
            let self :=
              <["_upos_to_allowed_lexcats" := VLexcats get_upos_allowed_lexcats]>
                self in
            masks ← upos_to_label_mask labels;
            Return (<["_upos_to_label_mask" := VMasks masks]> self)
          else Return self);
  let self :=
    <["include_start_end_transitions" := VBool include_start_end_transitions]>
      self in
  let self :=
    <["crf" := VCrf (Z.of_nat (length labels)) constraints
                    include_start_end_transitions]> self in
  let self := <["metrics" := VModule "metrics"]> self in
  Return self.

(** ** The forward pass (source lines 141-246, without gold tags) *)

(** A list comprehension whose element expression may raise. *)
Fixpoint comprehension {A B : Type} (f : A → result B) (xs : list A)
  : result (list B) :=
  match xs with
  | [] => Return []
  | x :: rest => y ← f x; ys ← comprehension f rest; Return (y :: ys)
  end.

Record forward_output : Type := {
  out_mask : list (list bool);
  out_tags : list (list Z);
  out_tokens : list (list string);
  out_constrained_logits : option tensor3;
  out_upos_tags : option (list (list string))
}.

Section Forward.

  (** What the embedder, the encoder, the projection layer, AllenNLP's
      [util] and the CRF compute is not part of this repository. *)
Context {Tokens : Type}.
Variable get_text_field_mask : Tokens → list (list bool).
Variable tag_projection : gmap string value → Tokens → tensor3.
Variable replace_masked_values : tensor3 → tensor3 → Q → tensor3.
Variable viterbi_tags :
    value → tensor3 → list (list bool) → list (list Z * Q).

Definition forward (self : gmap string value) (tokens : Tokens)
      (metadata : list (gmap string (list string))) : result forward_output :=
    let mask := get_text_field_mask tokens in
    let logits := tag_projection self tokens in
    use_upos_constraints ← getattr self "use_upos_constraints";
    condition ← (if truthy use_upos_constraints
                 then getattr self "use_lemma_constraints"
                 else Return use_upos_constraints);
    constrained ←
      (if truthy condition then
         batch_upos_tags ←
           comprehension (λ instance_metadata,
                            dict_getitem instance_metadata "upos_tags")
                         metadata;
         batch_lemmas ←
           comprehension (λ instance_metadata,
                            dict_getitem instance_metadata "lemmas")
                         metadata;
         batch_upos_constraint_mask ←
           get_upos_constraint_mask self batch_upos_tags batch_lemmas;
         Return (replace_masked_values logits batch_upos_constraint_mask
                                       SENTINEL,
                 Some batch_upos_tags)
       else Return (logits, None));
    crf ← getattr self "crf";
    let best_paths := viterbi_tags crf constrained.1 mask in
    let predicted_tags := best_paths.*1 in
    tokens_out ←
      comprehension (λ instance_metadata,
                       dict_getitem instance_metadata "tokens") metadata;
    use_upos_constraints ← getattr self "use_upos_constraints";
    if truthy use_upos_constraints then
      match constrained.2 with
      | Some batch_upos_tags =>
          Return {| out_mask := mask; out_tags := predicted_tags;
                    out_tokens := tokens_out;
                    out_constrained_logits := Some constrained.1;
                    out_upos_tags := Some batch_upos_tags |}
      | None => Raise (UnboundLocalError "batch_upos_tags")
      end
    else
      Return {| out_mask := mask; out_tags := predicted_tags;
                out_tokens := tokens_out;
                out_constrained_logits := None;
                out_upos_tags := None |}.

End Forward.

(** ** Classes of roles and of labels *)

(** The roles of tokens inside a gap, and the roles that continue an
    expression outside a gap. *)
Definition GAP_ROLES : list string := ["o"; "b"; "i_"; "i~"].

Definition CONTINUATION_ROLES : list string := ["I_"; "I~"].

(** The alphabet with every label cut down to its role. *)
Definition role_labels (labels : list (Z * string)) : list (Z * string) :=
  prod_map id role_of <$> labels.

(** ** Decoding the tag ids (source lines 249-260) *)

#[local] Set Warnings "-register-all".

(** Python values as they stand in an output dictionary and in the JSON
    of a request. *)
Inductive pyobj : Type :=
  | PNone
  | PBool (b : bool)
  | PInt (n : Z)
  | PFloat (x : Q)
  | PStr (s : string)
  | PList (items : list pyobj).

(** What a [for] clause iterates over. *)
Definition iterate (v : pyobj) : result (list pyobj) :=
  match v with
  | PList items => Return items
  | PStr s =>
      Return ((λ c, PStr (String c EmptyString)) <$> list_ascii_of_string s)
  | PNone => Raise (TypeError "'NoneType' object is not iterable")
  | PBool _ => Raise (TypeError "'bool' object is not iterable")
  | PInt _ => Raise (TypeError "'int' object is not iterable")
  | PFloat _ => Raise (TypeError "'float' object is not iterable")
  end.

Section Decode.

(** [self.vocab.get_token_from_index(tag, namespace=...)]: the vocabulary
    is AllenNLP's. *)
Variable get_token_from_index : pyobj → value → result string.

Definition decode (self : gmap string value)
    (output_dict : gmap string pyobj) : result (gmap string pyobj) :=
  tags ← dict_getitem output_dict "tags";
  instances ← iterate tags;
  decoded ←
    comprehension
      (λ instance_tags,
         items ← iterate instance_tags;
         names ←
           comprehension
             (λ tag,
                label_namespace ← getattr self "label_namespace";
                get_token_from_index tag label_namespace) items;
         Return (PList (PStr <$> names))) instances;
  Return (<["tags" := PList decoded]> output_dict).

End Decode.

(** ** The predictor (predictors/streusle_tagger.py, lines 13-22) *)

(** [d.get(k, default)]. *)
Definition dict_get {V : Type} (d : gmap string V) (k : string) (dflt : V)
  : V :=
  match d !! k with
  | Some v => v
  | None => dflt
  end.

Section Predictor.

(** [self._dataset_reader.text_to_instance(tokens=..., upos_tags=...,
    lemmas=...)]: the dataset reader is not part of these files. *)
Context {Instance : Type}.
Variable text_to_instance : pyobj → pyobj → pyobj → result Instance.

Definition _json_to_instance (json_dict : gmap string pyobj)
  : result Instance :=
  tokens ← dict_getitem json_dict "tokens";
  let gold_upos_tags := dict_get json_dict "upos_tags" PNone in
  let gold_lemmas := dict_get json_dict "lemmas" PNone in
  text_to_instance tokens gold_upos_tags gold_lemmas.

End Predictor.

(** ** The class probabilities of the metrics (source lines 239-242) *)









(** ** The masks over an arrangement of the UPOS set *)

(** Lines 103-121 with the tags of the set [ALL_UPOS] gone through in a
    given order. *)
Definition upos_to_label_mask_over (uposes : list string)
    (labels : list (Z * string)) : result (gmap string (list Q)) :=
  let upos_to_allowed_lexcats := get_upos_allowed_lexcats in
  for_each uposes (λ upos masks,
    mask ← upos_label_mask upos_to_allowed_lexcats labels upos;
    Return (<[upos := mask]> masks)) ∅.

(** * Theorems *)

(** ** The Python primitives on sample inputs *)

Example split_label :
  Py.split "-"%char "I~-V-v.cognition" = ["I~"; "V"; "v.cognition"].
Proof. reflexivity. Qed.

Example split_no_separator : Py.split "-"%char "O" = ["O"].
Proof. reflexivity. Qed.

Example ends : Py.endswith "X!@" "!@" = true ∧ Py.endswith "@" "!@" = false.
Proof. split; reflexivity. Qed.

Example transition_B_Itilde :
  is_streusle_transition_allowed "B" "I~" = Return true.
Proof. reflexivity. Qed.

Example transition_invalid_to :
  is_streusle_transition_allowed "B" "x"
  = Raise (ValueError "Got invalid to_tag x").
Proof. reflexivity. Qed.

(** ** Membership helpers *)

Lemma elem_true (s : string) (t : list string) :
  Py.elem s t = true ↔ s ∈ t.
Proof.
  unfold Py.elem. rewrite existsb_exists. split.
  - intros (x & Hin & Heq). apply String.eqb_eq in Heq. subst x.
    by apply list_elem_of_In.
  - intros Hin. exists s. split; [by apply list_elem_of_In|].
    apply String.eqb_refl.
Qed.

Lemma elem_false (s : string) (t : list string) :
  Py.elem s t = false ↔ s ∉ t.
Proof.
  rewrite <- elem_true. destruct (Py.elem s t); split; congruence.
Qed.

(** Case analysis on a tag known to lie in an explicit list. *)
Ltac cases_of_elem H :=
  repeat (apply elem_of_cons in H as [-> | H]);
  try (by apply elem_of_nil in H).

(** C1. On the closed set of ten roles, [is_streusle_transition_allowed]
    never raises and returns [true] exactly when the grammar of the
    specification permits the transition; in the sequence
    START, O, B, o, i_ the first three transitions are allowed and
    o -> i_ is the first one refused. *)
Theorem transition_matches_grammar :
  (∀ from_tag to_tag : string,
     from_tag ∈ CLOSED_SET → to_tag ∈ CLOSED_SET →
     is_streusle_transition_allowed from_tag to_tag
     = Return (bool_decide (grammar_permits from_tag to_tag)))
  ∧ map (λ p, is_streusle_transition_allowed p.1 p.2)
        (consecutive ["START"; "O"; "B"; "o"; "i_"])
    = [Return true; Return true; Return true; Return false].
Proof.
  split; [|reflexivity].
  intros from_tag to_tag Hf Ht.
  cases_of_elem Hf; cases_of_elem Ht; vm_compute; reflexivity.
Qed.

Lemma transition_matches_grammar_witness :
  is_streusle_transition_allowed "i~" "I_"
  = Return (bool_decide (grammar_permits "i~" "I_")).
Proof.
  apply (proj1 transition_matches_grammar "i~" "I_");
    apply list_elem_of_In; vm_compute; tauto.
Defined.

(** C10. The predicate does not tell the underscore variant from the
    tilde variant: exchanging them in both arguments leaves the answer
    unchanged. *)
Theorem transition_swap_variant (a b : string) :
  a ∈ CLOSED_SET → b ∈ CLOSED_SET →
  is_streusle_transition_allowed a b
  = is_streusle_transition_allowed (swap_variant a) (swap_variant b).
Proof.
  intros Ha Hb. cases_of_elem Ha; cases_of_elem Hb; reflexivity.
Qed.

Lemma transition_swap_variant_witness :
  is_streusle_transition_allowed "b" "i_"
  = is_streusle_transition_allowed (swap_variant "b") (swap_variant "i_").
Proof.
  apply (transition_swap_variant "b" "i_");
    apply list_elem_of_In; vm_compute; tauto.
Defined.

(** Exhibit [seq] as a START-to-END path through the role at hand. *)
Ltac on_path seq :=
  exists seq; split; [reflexivity|]; split; [reflexivity|];
  split; [apply list_elem_of_In; simpl; tauto|];
  unfold valid_sequence; simpl; repeat constructor.

(** C9. Every one of the eight roles lies on some sequence that starts
    with START, ends with END and has only allowed transitions. *)
Theorem every_role_on_a_valid_sequence (r : string) :
  r ∈ ROLES →
  ∃ seq : list string,
    head seq = Some "START" ∧ last seq = Some "END" ∧ r ∈ seq
    ∧ valid_sequence seq.
Proof.
  intros Hr.
  cases_of_elem Hr;
    [ on_path ["START"; "O"; "END"]
    | on_path ["START"; "B"; "o"; "I_"; "END"]
    | on_path ["START"; "B"; "I_"; "END"]
    | on_path ["START"; "B"; "b"; "i_"; "I_"; "END"]
    | on_path ["START"; "B"; "I_"; "END"]
    | on_path ["START"; "B"; "b"; "i_"; "I_"; "END"]
    | on_path ["START"; "B"; "I~"; "END"]
    | on_path ["START"; "B"; "b"; "i~"; "I_"; "END"] ].
Qed.

Lemma every_role_on_a_valid_sequence_witness :
  ∃ seq : list string,
    head seq = Some "START" ∧ last seq = Some "END" ∧ "i~" ∈ seq
    ∧ valid_sequence seq.
Proof.
  apply (every_role_on_a_valid_sequence "i~").
  apply list_elem_of_In; vm_compute; tauto.
Defined.

(** ** The loop combinator *)

Lemma for_each_collect {A B : Type} (xs : list A)
    (body : A → list B → result (list B)) (g : A → list B) (s : list B) :
  (∀ x s', x ∈ xs → body x s' = Return (s' ++ g x)%list) →
  for_each xs body s = Return (s ++ xs ≫= g)%list.
Proof.
  revert s. induction xs as [|x xs IH]; intros s Hbody; simpl.
  - by rewrite app_nil_r.
  - rewrite Hbody by left. simpl.
    rewrite IH by (intros; apply Hbody; by right).
    by rewrite <- app_assoc.
Qed.

Lemma for_each_raises {A S : Type} (P : exn → Prop) (xs : list A)
    (body : A → S → result S) (s : S) :
  (∀ x s' e, x ∈ xs → body x s' = Raise e → P e) →
  (∃ x, x ∈ xs ∧ ∀ s', raises (body x s')) →
  ∃ e, for_each xs body s = Raise e ∧ P e.
Proof.
  revert s. induction xs as [|x xs IH]; intros s Hall (y & Hy & Hraise).
  - by apply elem_of_nil in Hy.
  - simpl. destruct (body x s) as [s'|e] eqn:Hb.
    + simpl. apply IH.
      * intros z s'' e Hz. apply Hall. by right.
      * apply elem_of_cons in Hy as [-> | Hy]; [|by exists y].
        destruct (Hraise s) as [e He]. congruence.
    + exists e. split; [done|]. eapply Hall; [by left|done].
Qed.

(** ** Roles of labels *)

Lemma split_nonempty (sep : ascii) (s : string) : Py.split sep s ≠ [].
Proof.
  induction s as [|c rest IH]; simpl; [done|].
  destruct (Ascii.eqb c sep); [done|].
  by destruct (Py.split sep rest).
Qed.

(** Decomposing a label never raises. *)
Lemma tag_of_role_of (label : string) : tag_of label = Return (role_of label).
Proof.
  unfold tag_of, role_of, first_component, Py.getitem.
  destruct (Py.elem label ["START"; "END"]); [done|].
  pose proof (split_nonempty "-" label) as Hne.
  by destruct (Py.split "-"%char label).
Qed.

Lemma closed_set_valid (t : string) : t ∈ CLOSED_SET ↔ t ∈ VALID_TAGS.
Proof.
  unfold CLOSED_SET, ROLES, VALID_TAGS. simpl.
  rewrite !elem_of_cons, !elem_of_nil. tauto.
Qed.

Lemma transition_raises_iff (a b : string) :
  raises (is_streusle_transition_allowed a b)
  ↔ a ∉ VALID_TAGS ∨ b ∉ VALID_TAGS.
Proof.
  unfold is_streusle_transition_allowed, raises.
  rewrite <- !elem_false.
  destruct (Py.elem a VALID_TAGS), (Py.elem b VALID_TAGS); simpl.
  - split; [|intros [?|?]; done].
    intros [e He]. repeat case_match; done.
  - split; [auto | eauto].
  - split; [auto | eauto].
  - split; [auto | eauto].
Qed.

Lemma transition_returns (a b : string) :
  a ∈ VALID_TAGS → b ∈ VALID_TAGS →
  returns (is_streusle_transition_allowed a b).
Proof.
  intros Ha Hb.
  destruct (is_streusle_transition_allowed a b) as [ok|e] eqn:Heq;
    [by exists ok|].
  assert (raises (is_streusle_transition_allowed a b)) as Hr
    by (by exists e).
  apply transition_raises_iff in Hr as [?|?]; done.
Qed.

Lemma transition_raise_from (a b : string) :
  a ∉ VALID_TAGS →
  is_streusle_transition_allowed a b
  = Raise (ValueError ("Got invalid from_tag " +:+ a)).
Proof.
  intros Ha. apply elem_false in Ha.
  unfold is_streusle_transition_allowed. by rewrite Ha.
Qed.

Lemma transition_raise_to (a b : string) :
  a ∈ VALID_TAGS → b ∉ VALID_TAGS →
  is_streusle_transition_allowed a b
  = Raise (ValueError ("Got invalid to_tag " +:+ b)).
Proof.
  intros Ha Hb. apply elem_true in Ha. apply elem_false in Hb.
  unfold is_streusle_transition_allowed. by rewrite Ha, Hb.
Qed.

Lemma for_each_raise_inv {A S : Type} (xs : list A)
    (body : A → S → result S) (s : S) (e : exn) :
  for_each xs body s = Raise e →
  ∃ x s', x ∈ xs ∧ body x s' = Raise e.
Proof.
  revert s. induction xs as [|x xs IH]; intros s; simpl; [done|].
  destruct (body x s) as [s'|e'] eqn:Hb; simpl.
  - intros Hrest. destruct (IH _ Hrest) as (y & s'' & Hy & Hbody).
    exists y, s''. split; [by right|done].
  - intros [= ->]. exists x, s. split; [by left|done].
Qed.

(** ** The transition list *)

Lemma boundaries_valid (labels : list (Z * string)) (i : Z) (label : string) :
  (i, label) ∈ labels_with_boundaries labels →
  role_of label ∉ VALID_TAGS → (i, label) ∈ labels.
Proof.
  unfold labels_with_boundaries. intros Hin Hbad.
  apply elem_of_app in Hin as [Hin | Hin]; [done|].
  exfalso. apply Hbad.
  apply elem_of_cons in Hin as [[= -> ->] | Hin];
    [apply list_elem_of_In; vm_compute; tauto|].
  apply elem_of_cons in Hin as [[= -> ->] | Hin];
    [apply list_elem_of_In; vm_compute; tauto|].
  by apply elem_of_nil in Hin.
Qed.

Lemma transition_error_names_role (labels : list (Z * string))
    (i j : Z) (li lj : string) (e : exn) :
  (i, li) ∈ labels_with_boundaries labels →
  (j, lj) ∈ labels_with_boundaries labels →
  is_streusle_transition_allowed (role_of li) (role_of lj) = Raise e →
  invalid_role_error labels e.
Proof.
  intros Hi Hj He.
  destruct (decide (role_of li ∈ VALID_TAGS)) as [Hvi | Hvi].
  - destruct (decide (role_of lj ∈ VALID_TAGS)) as [Hvj | Hvj].
    + destruct (transition_returns _ _ Hvi Hvj) as [ok Hok]. congruence.
    + rewrite (transition_raise_to _ _ Hvi Hvj) in He. injection He as <-.
      exists j, lj. eauto using boundaries_valid.
  - rewrite (transition_raise_from _ _ Hvi) in He. injection He as <-.
    exists i, li. eauto using boundaries_valid.
Qed.

Lemma transitions_raise (labels : list (Z * string)) (i : Z) (label : string) :
  (i, label) ∈ labels → role_of label ∉ VALID_TAGS →
  ∃ e, streusle_allowed_transitions labels = Raise e
       ∧ invalid_role_error labels e.
Proof.
  intros Hin Hbad. unfold streusle_allowed_transitions.
  set (lwb := labels_with_boundaries labels).
  assert (Hlwb : (i, label) ∈ lwb).
  { unfold lwb, labels_with_boundaries. apply elem_of_app. by left. }
  apply for_each_raises.
  - intros [fi fl] s e Hf. rewrite tag_of_role_of. simpl.
    intros Hinner. apply for_each_raise_inv in Hinner
      as ([ti tl] & s' & Ht & Hbody).
    rewrite tag_of_role_of in Hbody. simpl in Hbody.
    destruct (is_streusle_transition_allowed (role_of fl) (role_of tl))
      as [ok|e'] eqn:Hcall; simpl in Hbody.
    + by destruct ok.
    + injection Hbody as ->.
      exact (transition_error_names_role labels fi ti fl tl e Hf Ht Hcall).
  - exists (i, label). split; [done|]. intros s.
    rewrite tag_of_role_of. simpl.
    destruct (for_each_raises (λ _, True) lwb
      (λ '(to_label_index, to_label) allowed,
         to_tag ← tag_of to_label;
         ok ← is_streusle_transition_allowed (role_of label) to_tag;
         if ok : bool then Return (allowed ++ [(i, to_label_index)])%list
         else Return allowed) s) as (e & He & _); [done| |by exists e].
    exists (i, label). split; [done|]. intros s'.
    rewrite tag_of_role_of. simpl.
    rewrite (transition_raise_from _ _ Hbad). by eexists.
Qed.

(** C7. [is_streusle_transition_allowed] raises exactly when one of its
    arguments lies outside the closed set of ten roles; the [ValueError]
    names the offending string and the side it stood on; and
    [streusle_allowed_transitions] raises such an error, returning no
    list at all, as soon as the alphabet holds a label with such a role. *)
Theorem invalid_role_raises :
  (∀ a b : string,
     raises (is_streusle_transition_allowed a b)
     ↔ a ∉ VALID_TAGS ∨ b ∉ VALID_TAGS)
  ∧ (∀ a b : string, a ∉ VALID_TAGS →
       is_streusle_transition_allowed a b
       = Raise (ValueError ("Got invalid from_tag " +:+ a)))
  ∧ (∀ a b : string, a ∈ VALID_TAGS → b ∉ VALID_TAGS →
       is_streusle_transition_allowed a b
       = Raise (ValueError ("Got invalid to_tag " +:+ b)))
  ∧ (∀ (labels : list (Z * string)) (i : Z) (label : string),
       (i, label) ∈ labels → role_of label ∉ VALID_TAGS →
       ∃ e, streusle_allowed_transitions labels = Raise e
            ∧ invalid_role_error labels e).
Proof.
  split; [exact transition_raises_iff|].
  split; [exact transition_raise_from|].
  split; [exact transition_raise_to|].
  exact transitions_raise.
Qed.

Lemma invalid_role_raises_witness :
  is_streusle_transition_allowed "B" "Q"
  = Raise (ValueError ("Got invalid to_tag " +:+ "Q"))
  ∧ ∃ e, streusle_allowed_transitions [(0, "O"); (1, "Q-N")] = Raise e
         ∧ invalid_role_error [(0, "O"); (1, "Q-N")] e.
Proof.
  destruct invalid_role_raises as (_ & _ & Hto & Hbuild). split.
  - apply (Hto "B" "Q").
    + apply list_elem_of_In. vm_compute. tauto.
    + intros H. apply list_elem_of_In in H. vm_compute in H.
      intuition discriminate.
  - apply (Hbuild [(0, "O"); (1, "Q-N")] 1 "Q-N").
    + apply list_elem_of_In. simpl. tauto.
    + intros H. apply list_elem_of_In in H. vm_compute in H.
      intuition discriminate.
Defined.

Lemma roles_valid (labels : list (Z * string)) (i : Z) (label : string) :
  roles_well_formed labels →
  (i, label) ∈ labels_with_boundaries labels →
  role_of label ∈ VALID_TAGS.
Proof.
  intros Hwf Hin.
  destruct (decide (role_of label ∈ VALID_TAGS)) as [|Hbad]; [done|].
  pose proof (boundaries_valid _ _ _ Hin Hbad) as Hlab.
  apply Hwf in Hlab. exfalso. apply Hbad.
  unfold role_of. destruct (Py.elem label ["START"; "END"]) eqn:Hb.
  - apply elem_true in Hb. cases_of_elem Hb;
      apply list_elem_of_In; vm_compute; tauto.
  - apply closed_set_valid. unfold CLOSED_SET. apply elem_of_app. by left.
Qed.

Lemma transitions_are_comprehension (labels : list (Z * string)) :
  roles_well_formed labels →
  streusle_allowed_transitions labels
  = Return (transitions_comprehension labels).
Proof.
  intros Hwf. unfold streusle_allowed_transitions, transitions_comprehension.
  apply (for_each_collect _ _ (transitions_from labels) []).
  intros [fi fl] s Hf. rewrite tag_of_role_of. simpl.
  apply for_each_collect. intros [ti tl] s' Ht.
  rewrite tag_of_role_of. simpl. unfold transition_ok. simpl.
  destruct (transition_returns (role_of fl) (role_of tl)) as [ok ->];
    [by eapply roles_valid | by eapply roles_valid |].
  simpl. destruct ok; [done|]. by rewrite app_nil_r.
Qed.

Lemma comprehension_permitted (labels : list (Z * string)) (i j : Z) :
  (i, j) ∈ transitions_comprehension labels ↔ permitted_pair labels i j.
Proof.
  unfold transitions_comprehension, transitions_from, permitted_pair.
  rewrite list_elem_of_bind. split.
  - intros ([fi fl] & Hpair & Hf).
    apply list_elem_of_bind in Hpair as ([ti tl] & Hpair & Ht).
    simpl in Hpair. unfold transition_ok in Hpair.
    destruct (is_streusle_transition_allowed (role_of fl) (role_of tl))
      as [[|]|] eqn:Hcall; try by apply elem_of_nil in Hpair.
    apply list_elem_of_singleton in Hpair as [= -> ->]. eauto.
  - intros (fl & tl & Hf & Ht & Hcall).
    exists (i, fl). split; [|done].
    apply list_elem_of_bind. exists (j, tl). split; [|done].
    simpl. unfold transition_ok. rewrite Hcall. by left.
Qed.

Lemma never_into_START (a : string) :
  is_streusle_transition_allowed a "START" ≠ Return true.
Proof.
  unfold is_streusle_transition_allowed.
  destruct (Py.elem a VALID_TAGS); [|done].
  change (Py.elem "START" VALID_TAGS) with true.
  change ("START" =? "START")%string with true. done.
Qed.

Lemma never_from_END (b : string) :
  is_streusle_transition_allowed "END" b ≠ Return true.
Proof.
  unfold is_streusle_transition_allowed.
  change (Py.elem "END" VALID_TAGS) with true.
  change ("END" =? "END")%string with true.
  destruct (Py.elem b VALID_TAGS); [|done].
  simpl. by rewrite orb_true_r.
Qed.

Lemma boundary_entry (labels : list (Z * string)) (i : Z) (label : string) :
  (i, label) ∈ labels_with_boundaries labels →
  (i, label) ∈ labels
  ∨ (i = start_index labels ∧ label = "START")
  ∨ (i = end_index labels ∧ label = "END").
Proof.
  unfold labels_with_boundaries, start_index, end_index. intros Hin.
  apply elem_of_app in Hin as [Hin | Hin]; [by left|]. right.
  apply elem_of_cons in Hin as [[= -> ->] | Hin]; [by left|].
  apply elem_of_cons in Hin as [[= -> ->] | Hin]; [by right|].
  by apply elem_of_nil in Hin.
Qed.

(** C2, as stated, fails for a dict whose key meets the index given to
    START: for [{1: "O"}] the list returned holds the pair (1, 1), whose
    target is the START index [num_labels = 1]. *)
Lemma transitions_index_collision :
  NoDup ([(1, "O")] : list (Z * string)).*1
  ∧ roles_well_formed [(1, "O")]
  ∧ ∃ allowed, streusle_allowed_transitions [(1, "O")] = Return allowed
               ∧ (1, start_index [(1, "O")]) ∈ allowed.
Proof.
  split; [apply NoDup_singleton|]. split.
  - intros i label Hin. apply list_elem_of_singleton in Hin as [= -> ->].
    apply list_elem_of_In. vm_compute. tauto.
  - exists [(1, 1); (1, 2); (1, 1)]. split; [reflexivity|]. by left.
Qed.

(** C2, amended. For every label dict whose labels decompose to the
    eight roles and none of whose keys is [num_labels] or
    [num_labels + 1], [streusle_allowed_transitions] returns exactly the
    index pairs of the augmented alphabet whose roles pass the
    transition predicate; no returned pair targets the START index and
    none leaves the END index. *)
Theorem transitions_exact (labels : list (Z * string)) :
  roles_well_formed labels →
  boundary_indices_free labels →
  ∃ allowed : list (Z * Z),
    streusle_allowed_transitions labels = Return allowed
    ∧ (∀ i j, (i, j) ∈ allowed ↔ permitted_pair labels i j)
    ∧ (∀ i j, (i, j) ∈ allowed →
              j ≠ start_index labels ∧ i ≠ end_index labels).
Proof.
  intros Hwf Hfree. exists (transitions_comprehension labels).
  split; [by apply transitions_are_comprehension|].
  split; [apply comprehension_permitted|].
  intros i j Hin. apply comprehension_permitted in Hin
    as (fl & tl & Hf & Ht & Hcall).
  apply boundary_entry in Hf. apply boundary_entry in Ht.
  unfold start_index, end_index in *. split.
  - intros ->. destruct Ht as [Ht | [[_ ->] | [Hj _]]].
    + by destruct (Hfree _ _ Ht).
    + by apply never_into_START in Hcall.
    + lia.
  - intros ->. destruct Hf as [Hf | [[Hi _] | [_ ->]]].
    + by destruct (Hfree _ _ Hf).
    + lia.
    + by apply never_from_END in Hcall.
Qed.

Lemma transitions_exact_witness :
  ∃ allowed : list (Z * Z),
    streusle_allowed_transitions [(0, "O"); (1, "B-N-n.person")]
    = Return allowed
    ∧ (∀ i j, (i, j) ∈ allowed
              ↔ permitted_pair [(0, "O"); (1, "B-N-n.person")] i j)
    ∧ (∀ i j, (i, j) ∈ allowed →
              j ≠ start_index [(0, "O"); (1, "B-N-n.person")]
              ∧ i ≠ end_index [(0, "O"); (1, "B-N-n.person")]).
Proof.
  apply (transitions_exact [(0, "O"); (1, "B-N-n.person")]).
  - intros i label Hin. apply list_elem_of_In in Hin. simpl in Hin.
    destruct Hin as [[= <- <-] | [[= <- <-] | []]];
      apply list_elem_of_In; vm_compute; tauto.
  - intros i label Hin. unfold start_index, end_index. simpl.
    apply list_elem_of_In in Hin. simpl in Hin.
    destruct Hin as [[= <- <-] | [[= <- <-] | []]]; lia.
Defined.

(** ** String tests *)

Lemma endswith_spec (s p : string) :
  Py.endswith s p = true ↔ ∃ front, s = front +:+ p.
Proof.
  induction s as [|c rest IH].
  - change (Py.endswith EmptyString p) with (String.eqb EmptyString p || false).
    rewrite orb_false_r, String.eqb_eq. split.
    + intros <-. by exists EmptyString.
    + intros [front Hfront]. destruct front; simpl in Hfront; [done|].
      discriminate.
  - change (Py.endswith (String c rest) p)
      with (String.eqb (String c rest) p || Py.endswith rest p).
    rewrite orb_true_iff, String.eqb_eq, IH. split.
    + intros [<- | [front ->]]; [by exists EmptyString|].
      by exists (String c front).
    + intros [[|c' front] Hfront]; simpl in Hfront; [by left|].
      injection Hfront as -> ->. right. by exists front.
Qed.

Lemma startswith_spec (s p : string) :
  Py.startswith s p = true ↔ ∃ back, s = p +:+ back.
Proof.
  unfold Py.startswith. revert s.
  induction p as [|c p IH]; intros [|c' s]; simpl.
  - split; [intros _; by exists EmptyString | done].
  - split; [intros _; by exists (String c' s) | done].
  - split; [done | intros [back ?]; done].
  - destruct (Ascii.ascii_dec c c') as [<- | Hne].
    + rewrite IH. split; intros [back Hback]; exists back.
      * by rewrite Hback.
      * by injection Hback.
    + split; [done|]. intros [back Hback]. by injection Hback.
Qed.

Lemma pair_elem_true (p : string * string) (t : list (string * string)) :
  pair_elem p t = true ↔ p ∈ t.
Proof.
  unfold pair_elem. rewrite existsb_exists. split.
  - intros ([q1 q2] & Hin & Heq). apply andb_true_iff in Heq as [H1 H2].
    apply String.eqb_eq in H1, H2. simpl in *.
    apply list_elem_of_In. destruct p. simpl in *. by subst.
  - intros Hin. exists p. split; [by apply list_elem_of_In|].
    by rewrite !String.eqb_refl.
Qed.

(** ** The compatibility predicate *)

(** [is_allowed] decides the specification's list of conditions, for
    all strings and not only for those of the two vocabularies. *)
Lemma is_allowed_compatible (upos lexcat : string) :
  is_allowed upos lexcat = true ↔ compatible upos lexcat.
Proof.
  unfold is_allowed, compatible.
  rewrite <- endswith_spec, <- startswith_spec, <- pair_elem_true.
  rewrite <- !elem_true, <- !String.eqb_eq.
  destruct (Py.endswith lexcat "!@"); [tauto|].
  destruct (upos =? lexcat)%string; [tauto|].
  destruct (pair_elem (upos, lexcat) KNOWN_EQUIVALENCES); [tauto|].
  destruct (Py.startswith lexcat "INF"), (upos =? "SCONJ")%string,
    (upos =? "PRON")%string, (Py.elem lexcat ["PRON"; "PRON.POSS"]),
    (lexcat =? "ADV")%string, (Py.elem upos ["ADV"; "PART"]);
    simpl; intuition discriminate.
Qed.

(** C3. On the two vocabularies [is_allowed] returns true exactly under
    the conditions the specification lists, and false otherwise; none of
    the lemma-conditioned pairings (AUX/V, ADP/CCONJ, PART/INF) is
    allowed; PRON/PRON.POSS is allowed and PRON/N is not. *)
Theorem is_allowed_as_specified :
  (∀ upos lexcat : string,
     upos ∈ ALL_UPOS → lexcat ∈ ALL_LEXCATS →
     (is_allowed upos lexcat = true ↔ compatible upos lexcat)
     ∧ (is_allowed upos lexcat = false ↔ ¬ compatible upos lexcat))
  ∧ is_allowed "AUX" "V" = false
  ∧ is_allowed "ADP" "CCONJ" = false
  ∧ is_allowed "PART" "INF" = false
  ∧ is_allowed "PRON" "PRON.POSS" = true
  ∧ is_allowed "PRON" "N" = false.
Proof.
  split; [|by vm_compute].
  intros upos lexcat _ _. rewrite <- is_allowed_compatible.
  destruct (is_allowed upos lexcat); simpl; intuition discriminate.
Qed.

Lemma is_allowed_as_specified_witness :
  (is_allowed "SCONJ" "INF.P" = true ↔ compatible "SCONJ" "INF.P")
  ∧ (is_allowed "SCONJ" "INF.P" = false ↔ ¬ compatible "SCONJ" "INF.P").
Proof.
  apply (proj1 is_allowed_as_specified "SCONJ" "INF.P");
    apply list_elem_of_In; vm_compute; tauto.
Defined.

(** ** The table of allowed lexcats *)

Lemma add_combination_is_Some lexcat acc upos u :
  is_Some (add_combination lexcat acc upos !! u)
  ↔ is_Some (acc !! u) ∨ (u = upos ∧ is_allowed u lexcat = true).
Proof.
  unfold add_combination.
  destruct (is_allowed upos lexcat) eqn:Hallowed.
  - rewrite lookup_alter. case_decide as Hu.
    + subst u. rewrite fmap_is_Some. case_decide as Hnew.
      * rewrite lookup_insert_eq. split; [auto | by eexists].
      * apply not_eq_None_Some in Hnew. tauto.
    + case_decide; [rewrite lookup_insert_ne by done|]; naive_solver.
  - split; [auto|]. intros [? | [-> ?]]; [done | congruence].
Qed.

Lemma add_combination_entry lexcat acc upos u l :
  l ∈ entry (add_combination lexcat acc upos) u
  ↔ l ∈ entry acc u ∨ (l = lexcat ∧ u = upos ∧ is_allowed u lexcat = true).
Proof.
  unfold add_combination, entry.
  destruct (is_allowed upos lexcat) eqn:Hallowed.
  - rewrite lookup_alter. case_decide as Hu.
    + subst u. case_decide as Hnew.
      * rewrite lookup_insert_eq, Hnew. simpl. set_solver.
      * destruct (acc !! upos); [|done]. simpl. set_solver.
    + case_decide; [rewrite lookup_insert_ne by done|]; naive_solver.
  - split; [auto|]. intros [? | (_ & -> & ?)]; [done | congruence].
Qed.

Lemma inner_loop_is_Some lexcat uposes acc u :
  is_Some (foldl (add_combination lexcat) acc uposes !! u)
  ↔ is_Some (acc !! u) ∨ (u ∈ uposes ∧ is_allowed u lexcat = true).
Proof.
  revert acc. induction uposes as [|x xs IH]; intros acc; simpl.
  - rewrite elem_of_nil. tauto.
  - rewrite IH, add_combination_is_Some, elem_of_cons. tauto.
Qed.

Lemma inner_loop_entry lexcat uposes acc u l :
  l ∈ entry (foldl (add_combination lexcat) acc uposes) u
  ↔ l ∈ entry acc u
    ∨ (l = lexcat ∧ u ∈ uposes ∧ is_allowed u lexcat = true).
Proof.
  revert acc. induction uposes as [|x xs IH]; intros acc; simpl.
  - rewrite elem_of_nil. tauto.
  - rewrite IH, add_combination_entry, elem_of_cons. tauto.
Qed.

Lemma outer_loop_is_Some lexcats uposes acc u :
  is_Some (foldl (λ a lexcat, foldl (add_combination lexcat) a uposes)
                 acc lexcats !! u)
  ↔ is_Some (acc !! u)
    ∨ (u ∈ uposes ∧ ∃ l, l ∈ lexcats ∧ is_allowed u l = true).
Proof.
  revert acc. induction lexcats as [|x xs IH]; intros acc; simpl.
  - setoid_rewrite elem_of_nil. naive_solver.
  - rewrite IH, inner_loop_is_Some. setoid_rewrite elem_of_cons.
    naive_solver.
Qed.

Lemma outer_loop_entry lexcats uposes acc u l :
  l ∈ entry (foldl (λ a lexcat, foldl (add_combination lexcat) a uposes)
                   acc lexcats) u
  ↔ l ∈ entry acc u
    ∨ (l ∈ lexcats ∧ u ∈ uposes ∧ is_allowed u l = true).
Proof.
  revert acc. induction lexcats as [|x xs IH]; intros acc; simpl.
  - rewrite elem_of_nil. tauto.
  - rewrite IH, inner_loop_entry, elem_of_cons. naive_solver.
Qed.

(** The table has an entry for a UPOS exactly when some lexcat is
    allowed for it, and the entry holds exactly the allowed lexcats. *)
Lemma table_is_Some (u : string) :
  is_Some (get_upos_allowed_lexcats !! u)
  ↔ u ∈ ALL_UPOS ∧ ∃ l, l ∈ ALL_LEXCATS ∧ is_allowed u l = true.
Proof.
  unfold get_upos_allowed_lexcats, allowed_combinations_over.
  rewrite outer_loop_is_Some, lookup_empty.
  split; [intros [[? [=]] | ?]; done | auto].
Qed.

Lemma table_entry (u l : string) :
  l ∈ entry get_upos_allowed_lexcats u
  ↔ l ∈ ALL_LEXCATS ∧ u ∈ ALL_UPOS ∧ is_allowed u l = true.
Proof.
  unfold get_upos_allowed_lexcats, allowed_combinations_over.
  rewrite outer_loop_entry. unfold entry at 1. rewrite lookup_empty.
  simpl. split; [|auto].
  intros [Hin | ?]; [by apply not_elem_of_empty in Hin | done].
Qed.

#[local] Opaque get_upos_allowed_lexcats.

Lemma entry_nonempty (table : gmap string (gset string)) (u l : string)
    (lexcats : gset string) :
  table !! u = Some lexcats → l ∈ entry table u → lexcats ≠ ∅.
Proof.
  unfold entry. intros -> Hin ->. by apply not_elem_of_empty in Hin.
Qed.

Lemma some_lexcat_allowed (u : string) :
  u ∈ ALL_UPOS → ∃ l, l ∈ ALL_LEXCATS ∧ is_allowed u l = true.
Proof.
  intros Hu.
  assert (existsb (is_allowed u) ALL_LEXCATS = true) as Hex
    by (cases_of_elem Hu; vm_compute; reflexivity).
  apply existsb_exists in Hex as (l & Hl & Hallowed).
  exists l. split; [by apply list_elem_of_In | done].
Qed.

Lemma every_upos_entry :
  length ALL_UPOS = 17%nat ∧ NoDup ALL_UPOS
  ∧ ∀ upos : string, upos ∈ ALL_UPOS →
      ∃ lexcats : gset string,
        get_upos_allowed_lexcats !! upos = Some lexcats ∧ lexcats ≠ ∅.
Proof.
  split; [reflexivity|]. split.
  { apply NoDup_ListNoDup. unfold ALL_UPOS.
    repeat (constructor; [simpl; intuition discriminate|]). constructor. }
  intros upos Hu.
  destruct (some_lexcat_allowed upos Hu) as (l & Hl & Hallowed).
  destruct (proj2 (table_is_Some upos)) as [lexcats Hlookup]; [eauto|].
  exists lexcats. split; [done|].
  eapply entry_nonempty; [exact Hlookup|].
  exact (proj2 (table_entry upos l) (conj Hl (conj Hu Hallowed))).
Qed.

(** C8. The table returned by [get_upos_allowed_lexcats] has an entry
    for each of the 17 tags of [ALL_UPOS], and no entry is empty. *)
Theorem every_upos_has_lexcats :
  length ALL_UPOS = 17%nat ∧ NoDup ALL_UPOS
  ∧ ∀ upos : string, upos ∈ ALL_UPOS →
      ∃ lexcats : gset string,
        get_upos_allowed_lexcats !! upos = Some lexcats ∧ lexcats ≠ ∅.
Proof. exact every_upos_entry. Qed.

Lemma every_upos_has_lexcats_witness :
  ∃ lexcats : gset string,
    get_upos_allowed_lexcats !! "AUX" = Some lexcats ∧ lexcats ≠ ∅.
Proof.
  apply (proj2 (proj2 every_upos_has_lexcats) "AUX").
  apply list_elem_of_In; vm_compute; tauto.
Defined.

(** ** The per-UPOS label masks *)

Lemma unique_key {A : Type} (l : list (Z * A)) (k : Z) (x y : A) :
  NoDup l.*1 → (k, x) ∈ l → (k, y) ∈ l → x = y.
Proof.
  induction l as [|[k' z] l IH]; csimpl; intros Hnd Hx Hy.
  - by apply elem_of_nil in Hx.
  - apply NoDup_cons in Hnd as [Hnotin Hnd].
    apply elem_of_cons in Hx as [[= -> ->] | Hx];
      apply elem_of_cons in Hy as [[= ?] | Hy]; subst; auto.
    + destruct Hnotin. apply list_elem_of_fmap. by exists (k', y).
    + destruct Hnotin. apply list_elem_of_fmap. by exists (k', x).
Qed.

Lemma passes_admissible (upos label : string) :
  passes get_upos_allowed_lexcats upos label = true ↔ admissible upos label.
Proof.
  unfold passes, admissible.
  rewrite !orb_true_iff, andb_true_iff, !negb_true_iff, Nat.eqb_eq.
  rewrite bool_decide_eq_true, <- !startswith_spec.
  generalize (lexcat_of label ∈ entry get_upos_allowed_lexcats upos).
  generalize (length (Py.split "-" label) = 1%nat).
  intros Hone Hlexcat.
  destruct (Py.startswith label "O-"), (Py.startswith label "o-");
    intuition discriminate.
Qed.

Lemma setitem_in_range {A : Type} (t : list A) (i : Z) (v : A) :
  0 ≤ i < Z.of_nat (length t) →
  tensor_setitem t i v = Return (<[Z.to_nat i := v]> t).
Proof. intros Hi. unfold tensor_setitem. by rewrite bool_decide_eq_true_2. Qed.

(** One round of the loop over the labels writes a 1 exactly when the
    label passes. *)
Lemma mask_round (table : gmap string (gset string)) (upos : string)
    (lexcats : gset string) (i : Z) (label : string) (mask : list Q) :
  table !! upos = Some lexcats →
  0 ≤ i < Z.of_nat (length mask) →
  (if Nat.eqb (length (Py.split "-" label)) 1 then
     tensor_setitem mask i 1%Q
   else
     label_lexcat ← Py.getitem (Py.split "-" label) 1;
     if negb (Py.startswith label "O-") && negb (Py.startswith label "o-")
     then tensor_setitem mask i 1%Q
     else
       lexcats ← dict_getitem table upos;
       if bool_decide (label_lexcat ∈ lexcats)
       then tensor_setitem mask i 1%Q
       else Return mask)
  = Return (if passes table upos label
            then <[Z.to_nat i := 1%Q]> mask else mask).
Proof.
  intros Htable Hi. unfold passes, lexcat_of, entry, dict_getitem, Py.getitem.
  rewrite Htable, !(setitem_in_range _ _ _ Hi). simpl.
  pose proof (split_nonempty "-" label) as Hne.
  destruct (Py.split "-" label) as [|role [|lexcat rest]]; [done|done|].
  simpl.
  destruct (negb (Py.startswith label "O-") && negb (Py.startswith label "o-"));
    simpl; [done|].
  by destruct (bool_decide (lexcat ∈ lexcats)).
Qed.

Lemma for_each_writes (labels : list (Z * string))
    (body : Z * string → list Q → result (list Q)) (f : string → bool)
    (m0 : list Q) :
  (∀ i l m, (i, l) ∈ labels → length m = length m0 →
     body (i, l) m = Return (if f l then <[Z.to_nat i := 1%Q]> m else m)) →
  (∀ i l, (i, l) ∈ labels → (Z.to_nat i < length m0)%nat) →
  ∃ m', for_each labels body m0 = Return m' ∧ length m' = length m0
    ∧ ∀ k : nat,
        (m' !! k = Some 1%Q
         ∧ ∃ i l, (i, l) ∈ labels ∧ Z.to_nat i = k ∧ f l = true)
        ∨ (m' !! k = m0 !! k
           ∧ ∀ i l, (i, l) ∈ labels → Z.to_nat i = k → f l = false).
Proof.
  revert m0. induction labels as [|[i l] rest IH]; intros m0 Hbody Hrange.
  - exists m0. split; [done|]. split; [done|]. intros k. right.
    split; [done|]. intros ? ? Hin. by apply elem_of_nil in Hin.
  - simpl. rewrite Hbody by (done || by left). simpl.
    set (m1 := if f l then <[Z.to_nat i := 1%Q]> m0 else m0).
    assert (Hlen : length m1 = length m0).
    { unfold m1. destruct (f l); [apply length_insert | done]. }
    destruct (IH m1) as (m' & Hrun & Hlen' & Hinv).
    { intros i' l' m Hin Hm. apply Hbody; [by right | congruence]. }
    { intros i' l' Hin. rewrite Hlen. apply (Hrange i' l'). by right. }
    exists m'. split; [done|]. split; [congruence|].
    intros k. destruct (Hinv k) as [[Hone (i' & l' & Hin & Hk & Hf)] | [Hsame Hnone]].
    + left. split; [done|]. exists i', l'. split; [by right | done].
    + destruct (decide (Z.to_nat i = k)) as [Hk | Hk].
      * destruct (f l) eqn:Hf.
        -- left. split.
           ++ rewrite Hsame. unfold m1. subst k.
              apply list_lookup_insert_eq. apply (Hrange i l). by left.
           ++ exists i, l. split; [by left | done].
        -- right. split; [by rewrite Hsame|].
           intros i' l' Hin Hk'. apply elem_of_cons in Hin as [[= -> ->] | Hin];
             [done | by eapply Hnone].
      * right. split.
        -- rewrite Hsame. unfold m1.
           destruct (f l); [by apply list_lookup_insert_ne | done].
        -- intros i' l' Hin Hk'. apply elem_of_cons in Hin as [[= -> ->] | Hin];
             [done | by eapply Hnone].
Qed.

Lemma for_each_insert {V : Type} (xs : list string) (g : string → result V)
    (h : string → V) (acc0 : gmap string V) :
  (∀ x, x ∈ xs → g x = Return (h x)) →
  ∃ acc, for_each xs (λ x acc, m ← g x; Return (<[x := m]> acc)) acc0
         = Return acc
    ∧ ∀ u, acc !! u = if decide (u ∈ xs) then Some (h u) else acc0 !! u.
Proof.
  revert acc0. induction xs as [|x xs IH]; intros acc0 Hg.
  - exists acc0. split; [done|]. intros u. case_decide as Hu; [|done].
    by apply elem_of_nil in Hu.
  - simpl. rewrite Hg by left. simpl.
    destruct (IH (<[x := h x]> acc0)) as (acc & Hrun & Hlookup).
    { intros y Hy. apply Hg. by right. }
    exists acc. split; [done|]. intros u. rewrite Hlookup.
    destruct (decide (u ∈ xs)) as [Hin | Hnotin].
    + rewrite decide_True by (by right). done.
    + destruct (decide (u = x)) as [-> | Hne].
      * rewrite lookup_insert_eq. by rewrite decide_True by left.
      * rewrite lookup_insert_ne by done.
        rewrite decide_False; [done|].
        intros [? | ?]%elem_of_cons; done.
Qed.

(** The mask of one UPOS: a 1 at the index of every label that passes, a 0
    at the index of every other label. *)
Lemma label_mask_spec (table : gmap string (gset string))
    (labels : list (Z * string)) (upos : string) (lexcats : gset string) :
  vocabulary_indexed labels → table !! upos = Some lexcats →
  ∃ mask, upos_label_mask table labels upos = Return mask
    ∧ length mask = length labels
    ∧ ∀ i label, (i, label) ∈ labels →
        mask !! Z.to_nat i
        = Some (if passes table upos label then 1%Q else 0%Q).
Proof.
  intros [Hnodup Hrange] Htable. unfold upos_label_mask.
  set (m0 := replicate (length labels) 0%Q).
  assert (Hm0 : length m0 = length labels) by apply length_replicate.
  destruct (for_each_writes labels
    (λ '(label_index, label) upos_label_mask,
       if Nat.eqb (length (Py.split "-" label)) 1 then
         tensor_setitem upos_label_mask label_index 1%Q
       else
         label_lexcat ← Py.getitem (Py.split "-" label) 1;
         if negb (Py.startswith label "O-")
            && negb (Py.startswith label "o-")
         then tensor_setitem upos_label_mask label_index 1%Q
         else
           lexcats ← dict_getitem table upos;
           if bool_decide (label_lexcat ∈ lexcats)
           then tensor_setitem upos_label_mask label_index 1%Q
           else Return upos_label_mask)
    (passes table upos) m0) as (mask & Hrun & Hlen & Hinv).
  - intros i l m Hin Hm. eapply mask_round; [exact Htable|].
    rewrite Hm, Hm0. by eapply Hrange.
  - intros i l Hin. rewrite Hm0. specialize (Hrange i l Hin). lia.
  - exists mask. split; [exact Hrun|]. split; [congruence|].
    intros i label Hin. pose proof (Hrange i label Hin) as Hi.
    destruct (Hinv (Z.to_nat i))
      as [[Hone (i' & l' & Hin' & Hk & Hf)] | [Hsame Hnone]].
    + assert (i' = i) as -> by (specialize (Hrange i' l' Hin'); lia).
      rewrite (unique_key labels i label l' Hnodup Hin Hin'), Hf. exact Hone.
    + rewrite (Hnone i label Hin eq_refl), Hsame.
      apply lookup_replicate_2. lia.
Qed.

(** C4. For every UPOS of [ALL_UPOS] the mask built by [__init__] marks
    a label of the alphabet allowed exactly when the label has no lexcat
    component, or does not start with O- or o-, or has its lexcat among
    those allowed for the UPOS; a label without lexcat is allowed under
    every UPOS; and under NOUN the labels O, O-N-n.person and B are
    allowed while O-V-v.cognition is not. *)
Theorem label_mask_admissible :
  (∀ (labels : list (Z * string)) (upos : string),
     vocabulary_indexed labels → upos ∈ ALL_UPOS →
     ∃ (masks : gmap string (list Q)) (mask : list Q),
       upos_to_label_mask labels = Return masks
       ∧ masks !! upos = Some mask
       ∧ length mask = length labels
       ∧ ∀ i label, (i, label) ∈ labels →
           (mask !! Z.to_nat i = Some 1%Q ↔ admissible upos label)
           ∧ (mask !! Z.to_nat i = Some 0%Q ↔ ¬ admissible upos label)
           ∧ (length (Py.split "-" label) = 1%nat →
              mask !! Z.to_nat i = Some 1%Q))
  ∧ (masks ← upos_to_label_mask
       [(0, "O"); (1, "O-N-n.person"); (2, "O-V-v.cognition"); (3, "B")];
     dict_getitem masks "NOUN")
    = Return [1%Q; 1%Q; 0%Q; 1%Q].
Proof.
  split; [|by vm_compute].
  intros labels upos Hvocab Hupos. unfold upos_to_label_mask.
  set (table := get_upos_allowed_lexcats).
  set (h := λ u, match upos_label_mask table labels u with
                 | Return m => m
                 | Raise _ => []
                 end).
  destruct (for_each_insert ALL_UPOS (upos_label_mask table labels) h ∅)
    as (masks & Hrun & Hlookup).
  { intros u Hu.
    destruct (proj2 (proj2 every_upos_entry) u Hu) as (lexcats & Hl & _).
    destruct (label_mask_spec table labels u lexcats Hvocab Hl)
      as (mask & Hmask & _).
    unfold h. by rewrite Hmask. }
  destruct (proj2 (proj2 every_upos_entry) upos Hupos)
    as (lexcats & Hl & _).
  destruct (label_mask_spec table labels upos lexcats Hvocab Hl)
    as (mask & Hmask & Hlen & Hspec).
  exists masks, mask. split; [exact Hrun|]. split.
  { rewrite Hlookup, decide_True by done. unfold h. by rewrite Hmask. }
  split; [exact Hlen|].
  intros i label Hin. rewrite (Hspec i label Hin).
  rewrite <- passes_admissible. fold table.
  assert (Hrole : length (Py.split "-" label) = 1%nat →
                  passes table upos label = true).
  { intros Hone. unfold passes. by rewrite Hone. }
  revert Hrole.
  generalize (passes table upos label)
             (length (Py.split "-" label) = 1%nat).
  clear. intros [] Hone Hrole.
  - repeat split; intros; try done; try discriminate.
  - repeat split; intros; try done; try discriminate.
    specialize (Hrole ltac:(assumption)). discriminate.
Qed.

Lemma label_mask_admissible_witness :
  ∃ (masks : gmap string (list Q)) (mask : list Q),
    upos_to_label_mask [(0, "O"); (1, "O-V-v.cognition")] = Return masks
    ∧ masks !! "NOUN" = Some mask
    ∧ length mask = length [(0, "O"); (1, "O-V-v.cognition")]
    ∧ ∀ i label, (i, label) ∈ [(0, "O"); (1, "O-V-v.cognition")] →
        (mask !! Z.to_nat i = Some 1%Q ↔ admissible "NOUN" label)
        ∧ (mask !! Z.to_nat i = Some 0%Q ↔ ¬ admissible "NOUN" label)
        ∧ (length (Py.split "-" label) = 1%nat →
           mask !! Z.to_nat i = Some 1%Q).
Proof.
  apply (proj1 label_mask_admissible
           [(0, "O"); (1, "O-V-v.cognition")] "NOUN").
  - split.
    + apply NoDup_ListNoDup. simpl.
      repeat (constructor; [simpl; intuition discriminate|]). constructor.
    + intros i label Hin. apply list_elem_of_In in Hin. simpl in Hin.
      destruct Hin as [[= <- <-] | [[= <- <-] | []]]; simpl; lia.
  - apply list_elem_of_In. vm_compute. tauto.
Defined.

(** ** The per-token mask of a batch *)

(** No tag of [ALL_UPOS] has exactly two characters. *)
Lemma unpack_upos (upos : string) :
  upos ∈ ALL_UPOS → ∃ msg, unpack_pair upos = Raise (ValueError msg).
Proof. intros Hu. cases_of_elem Hu; eexists; reflexivity. Qed.

Lemma enumerate_elem {A : Type} (xs : list A) (k : nat) (x : A) :
  (k, x) ∈ enumerate xs → x ∈ xs.
Proof.
  unfold enumerate. intros Hin.
  apply elem_of_lookup_imap_1 in Hin as (i & y & [= -> ->] & Hy).
  by eapply list_elem_of_lookup_2.
Qed.

(** The loop over the time steps of one example: it raises a
    [ValueError] as soon as the example has a token. *)
Lemma timestep_loop_raises (self : gmap string value) (example_index : nat)
    (num_tags : nat) (tags : list string) (m : tensor3) :
  (∀ u, u ∈ tags → u ∈ ALL_UPOS) →
  (∀ e, for_each (enumerate tags)
          (λ '(timestep_index, item) upos_constraint_mask,
             '(timestep_upos_tag, timestep_lemma) ← unpack_pair item;
             masks_attr ← getattr self "_upos_to_label_mask";
             masks ← as_masks masks_attr;
             row ← dict_getitem masks timestep_upos_tag;
             tensor_set_row upos_constraint_mask example_index
                            timestep_index row num_tags) m = Raise e →
        ∃ msg, e = ValueError msg)
  ∧ (tags ≠ [] →
     raises (for_each (enumerate tags)
          (λ '(timestep_index, item) upos_constraint_mask,
             '(timestep_upos_tag, timestep_lemma) ← unpack_pair item;
             masks_attr ← getattr self "_upos_to_label_mask";
             masks ← as_masks masks_attr;
             row ← dict_getitem masks timestep_upos_tag;
             tensor_set_row upos_constraint_mask example_index
                            timestep_index row num_tags) m)).
Proof.
  intros Hupos. split.
  - intros e Hraise.
    apply for_each_raise_inv in Hraise as ([k item] & m' & Hin & Hbody).
    apply enumerate_elem, Hupos, unpack_upos in Hin as [msg Hmsg].
    rewrite Hmsg in Hbody. simpl in Hbody. injection Hbody as <-. by exists msg.
  - destruct tags as [|u rest]; [done|]. intros _.
    destruct (unpack_upos u) as [msg Hmsg]; [apply Hupos; by left|].
    unfold enumerate. simpl. rewrite Hmsg. simpl. by eexists.
Qed.

(** C5 (the code at work). On a batch of UPOS tag lists drawn from
    [ALL_UPOS] that holds at least one token, with as many lemma lists,
    [get_upos_constraint_mask] returns no mask: unpacking the first UPOS
    string into a (tag, lemma) pair raises a [ValueError].  For the
    batch [[NOUN]] with lemmas [[dog]] the error is the one of unpacking
    a four-character string. *)
Theorem constraint_mask_unpack_error :
  (∀ (self : gmap string value) (n : Z)
     (batch_upos_tags batch_lemmas : list (list string)),
     self !! "num_tags" = Some (VInt n) →
     length batch_lemmas = length batch_upos_tags →
     (∀ tags u, tags ∈ batch_upos_tags → u ∈ tags → u ∈ ALL_UPOS) →
     (∃ tags, tags ∈ batch_upos_tags ∧ tags ≠ []) →
     ∃ msg, get_upos_constraint_mask self batch_upos_tags batch_lemmas
            = Raise (ValueError msg))
  ∧ (∀ self : gmap string value,
       self !! "num_tags" = Some (VInt 4) →
       get_upos_constraint_mask self [["NOUN"]] [["dog"]]
       = Raise (ValueError "too many values to unpack (expected 2)")).
Proof.
  split.
  - intros self n batch_upos_tags batch_lemmas Hnum Hlen Hupos
      (tags & Htags & Hne).
    unfold get_upos_constraint_mask, getattr. rewrite Hnum.
    destruct batch_upos_tags as [|first others];
      [by apply elem_of_nil in Htags|].
    cbn [max_by_len mbind result_bind as_size].
    match goal with
    | |- ∃ msg, for_each ?xs ?body ?m0 = _ =>
        destruct (for_each_raises (λ e, ∃ msg, e = ValueError msg) xs body m0)
          as (e & Hrun & msg & ->)
    end.
    + intros [k [example_tags example_lemmas]] m e Hin.
      apply enumerate_elem, elem_of_zip_l in Hin.
      apply timestep_loop_raises. intros u Hu. by eapply Hupos.
    + apply list_elem_of_lookup_1 in Htags as [k Hk].
      destruct (lookup_lt_is_Some_2 batch_lemmas k) as [lemmas Hlemmas].
      { rewrite Hlen. by eapply lookup_lt_Some. }
      exists (k, (tags, lemmas)). split.
      * apply (elem_of_lookup_imap_2 (λ i x, (i, x))).
        apply lookup_zip_with_Some. by exists tags, lemmas.
      * intros m. apply timestep_loop_raises; [|done].
        intros u Hu. apply (Hupos tags u); [|done].
        by eapply list_elem_of_lookup_2.
    + by exists msg.
  - intros self Hnum. unfold get_upos_constraint_mask, getattr.
    rewrite Hnum. reflexivity.
Qed.

Lemma constraint_mask_unpack_error_witness :
  ∃ msg,
    get_upos_constraint_mask (<["num_tags" := VInt 4]> ∅)
      [[]; ["DET"; "NOUN"]] [[]; ["the"; "dog"]]
    = Raise (ValueError msg).
Proof.
  apply (proj1 constraint_mask_unpack_error
           (<["num_tags" := VInt 4]> ∅) 4
           [[]; ["DET"; "NOUN"]] [[]; ["the"; "dog"]]).
  - reflexivity.
  - reflexivity.
  - intros tags u Htags Hu. apply list_elem_of_In in Htags. simpl in Htags.
    destruct Htags as [<- | [<- | []]].
    + by apply elem_of_nil in Hu.
    + apply list_elem_of_In in Hu. simpl in Hu.
      destruct Hu as [<- | [<- | []]];
        apply list_elem_of_In; vm_compute; tauto.
  - exists ["DET"; "NOUN"]. split; [|discriminate].
    apply list_elem_of_In. simpl. tauto.
Defined.

(** ** The forward pass *)

(** [__init__] sets [use_upos_constraints] and [num_tags], and never
    sets [use_lemma_constraints]. *)
Lemma init_attributes (labels : list (Z * string)) (label_namespace : string)
    (use_upos_constraints include_start_end_transitions : bool)
    (self : gmap string value) :
  init labels label_namespace use_upos_constraints
       include_start_end_transitions = Return self →
  self !! "use_upos_constraints" = Some (VBool use_upos_constraints)
  ∧ self !! "num_tags" = Some (VInt (Z.of_nat (length labels)))
  ∧ self !! "use_lemma_constraints" = None.
Proof.
  unfold init.
  destruct (streusle_allowed_transitions labels) as [constraints|]; [|done].
  cbn [mbind result_bind].
  destruct use_upos_constraints.
  - destruct (upos_to_label_mask labels) as [masks|]; [|done].
    cbn [mbind result_bind]. intros [= <-].
    repeat split; by simplify_map_eq.
  - cbn [mbind result_bind]. intros [= <-].
    repeat split; by simplify_map_eq.
Qed.

(** C6 (the code at work). A model built with
    [use_upos_constraints = True] never reaches the masked-value
    replacement: the condition of line 196 reads
    [self.use_lemma_constraints], which [__init__] does not set, and
    every call of [forward] raises an [AttributeError]. *)
Theorem forward_attribute_error {Tokens : Type}
    (get_text_field_mask : Tokens → list (list bool))
    (tag_projection : gmap string value → Tokens → tensor3)
    (replace_masked_values : tensor3 → tensor3 → Q → tensor3)
    (viterbi_tags : value → tensor3 → list (list bool) → list (list Z * Q))
    (labels : list (Z * string)) (label_namespace : string)
    (include_start_end_transitions : bool) (self : gmap string value)
    (tokens : Tokens) (metadata : list (gmap string (list string))) :
  init labels label_namespace true include_start_end_transitions
  = Return self →
  forward get_text_field_mask tag_projection replace_masked_values
          viterbi_tags self tokens metadata
  = Raise (AttributeError
             "'StreusleTagger' object has no attribute 'use_lemma_constraints'").
Proof.
  intros Hinit.
  destruct (init_attributes _ _ _ _ _ Hinit) as (Hupos & _ & Hlemma).
  unfold forward, getattr. rewrite Hupos. cbn [mbind result_bind truthy].
  by rewrite Hlemma.
Qed.

(** On a vocabulary whose labels carry the eight roles, [__init__]
    completes. *)
Lemma upos_to_label_mask_returns (labels : list (Z * string)) :
  vocabulary_indexed labels → returns (upos_to_label_mask labels).
Proof.
  intros Hvocab. unfold upos_to_label_mask.
  set (table := get_upos_allowed_lexcats).
  set (h := λ u, match upos_label_mask table labels u with
                 | Return m => m
                 | Raise _ => []
                 end).
  destruct (for_each_insert ALL_UPOS (upos_label_mask table labels) h ∅)
    as (masks & Hrun & _); [|by exists masks].
  intros u Hu.
  destruct (proj2 (proj2 every_upos_entry) u Hu) as (lexcats & Hl & _).
  destruct (label_mask_spec table labels u lexcats Hvocab Hl)
    as (mask & Hmask & _).
  unfold h. by rewrite Hmask.
Qed.

Lemma init_returns (labels : list (Z * string)) (label_namespace : string)
    (use_upos_constraints include_start_end_transitions : bool) :
  vocabulary_indexed labels → roles_well_formed labels →
  returns (init labels label_namespace use_upos_constraints
                include_start_end_transitions).
Proof.
  intros Hvocab Hroles. unfold init.
  rewrite (transitions_are_comprehension labels Hroles).
  cbn [mbind result_bind].
  destruct use_upos_constraints; [|by eexists].
  destruct (upos_to_label_mask_returns labels Hvocab) as [masks ->].
  by eexists.
Qed.

Lemma forward_attribute_error_witness :
  ∃ self : gmap string value,
    init [(0, "O"); (1, "B-N-n.person")] "labels" true true = Return self
    ∧ forward (Tokens := list string) (λ _, []) (λ _ _, [])
              (λ logits _ _, logits) (λ _ _ _, [])
              self ["dog"]
              [ {[ "tokens" := ["dog"]; "upos_tags" := ["NOUN"];
                   "lemmas" := ["dog"] ]} ]
      = Raise (AttributeError
                 "'StreusleTagger' object has no attribute 'use_lemma_constraints'").
Proof.
  destruct (init_returns [(0, "O"); (1, "B-N-n.person")] "labels" true true)
    as [self Hself].
  - split.
    + apply NoDup_ListNoDup. simpl.
      repeat (constructor; [simpl; intuition discriminate|]). constructor.
    + intros i label Hin. apply list_elem_of_In in Hin. simpl in Hin.
      destruct Hin as [[= <- <-] | [[= <- <-] | []]]; simpl; lia.
  - intros i label Hin. apply list_elem_of_In in Hin. simpl in Hin.
    destruct Hin as [[= <- <-] | [[= <- <-] | []]];
      apply list_elem_of_In; vm_compute; tauto.
  - exists self. split; [exact Hself|].
    exact (forward_attribute_error (Tokens := list string) (λ _, [])
             (λ _ _, []) (λ logits _ _, logits) (λ _ _ _, [])
             [(0, "O"); (1, "B-N-n.person")] "labels" true self ["dog"]
             _ Hself).
Defined.

(** * Further properties of the code *)

(** ** Sequences of roles *)

Lemma valid_sequence_cons (a b : string) (l : list string) :
  valid_sequence (a :: b :: l)
  ↔ is_streusle_transition_allowed a b = Return true
    ∧ valid_sequence (b :: l).
Proof. unfold valid_sequence. simpl. by rewrite Forall_cons. Qed.

Lemma valid_sequence_tail (a : string) (l : list string) :
  valid_sequence (a :: l) → valid_sequence l.
Proof.
  destruct l as [|b l]; [by constructor|].
  by intros [_ ?]%valid_sequence_cons.
Qed.

Lemma valid_sequence_suffix (pre l : list string) :
  valid_sequence (pre ++ l) → valid_sequence l.
Proof.
  induction pre as [|a pre IH]; simpl; [done|].
  intros H%valid_sequence_tail. auto.
Qed.

Lemma valid_sequence_step (pre post : list string) (a b : string) :
  valid_sequence (pre ++ a :: b :: post) →
  is_streusle_transition_allowed a b = Return true.
Proof.
  intros H%valid_sequence_suffix. by apply valid_sequence_cons in H as [? _].
Qed.

Lemma valid_sequence_snoc (seq suffix : list string) (r : string) :
  valid_sequence seq → last seq = Some r →
  valid_sequence (r :: suffix) → valid_sequence (seq ++ suffix).
Proof.
  intros Hseq Hlast Hsuffix.
  induction seq as [|a [|b seq] IH]; [done| |].
  - simpl in Hlast. injection Hlast as ->. done.
  - apply valid_sequence_cons in Hseq as [Hab Hseq].
    change (valid_sequence (a :: b :: (seq ++ suffix)%list)).
    apply valid_sequence_cons. split; [done|]. by apply IH.
Qed.

Lemma allowed_valid (a b : string) :
  is_streusle_transition_allowed a b = Return true →
  a ∈ VALID_TAGS ∧ b ∈ VALID_TAGS.
Proof.
  intros H. destruct (decide (a ∈ VALID_TAGS)) as [Ha | Ha].
  - destruct (decide (b ∈ VALID_TAGS)) as [Hb | Hb]; [done|].
    by rewrite (transition_raise_to _ _ Ha Hb) in H.
  - by rewrite (transition_raise_from _ _ Ha) in H.
Qed.

(** Settle a goal about an allowed transition [H] by going through the
    ten roles on each side. *)
Ltac by_transition_table H :=
  let Ha := fresh "Ha" in
  let Hb := fresh "Hb" in
  destruct (allowed_valid _ _ H) as [Ha Hb];
  unfold VALID_TAGS in Ha, Hb; cases_of_elem Ha; cases_of_elem Hb;
  try (by vm_compute in H);
  try (by exfalso; match goal with
                   | Hin : _ ∈ _ |- _ =>
                       apply list_elem_of_In in Hin; vm_compute in Hin;
                       intuition discriminate
                   end);
  first [ left; apply list_elem_of_In; simpl; tauto
        | right; apply list_elem_of_In; simpl; tauto
        | left; reflexivity
        | apply list_elem_of_In; simpl; tauto ].

Lemma after_open (a b : string) :
  a ∈ "B" :: GAP_ROLES →
  is_streusle_transition_allowed a b = Return true →
  b ∈ GAP_ROLES ∨ b ∈ CONTINUATION_ROLES.
Proof. intros Hopen H. by_transition_table H. Qed.

Lemma before_inside (a b : string) :
  b ∈ (CONTINUATION_ROLES ++ GAP_ROLES)%list →
  is_streusle_transition_allowed a b = Return true →
  a = "B" ∨ a ∈ (CONTINUATION_ROLES ++ GAP_ROLES)%list.
Proof. intros Hinside H. by_transition_table H. Qed.

Lemma before_inner_continuation (a b : string) :
  b ∈ ["i_"; "i~"] →
  is_streusle_transition_allowed a b = Return true →
  a = "b" ∨ a ∈ ["i_"; "i~"].
Proof. intros Hinner H. by_transition_table H. Qed.

(** X1. In a sequence of allowed transitions that ends with END, every
    B, o, b, i_ or i~ is followed, after a run of gap roles, by I_ or
    I~: an expression that was begun, or interrupted by a gap, is
    resumed before the sequence ends. *)
Theorem open_expression_is_resumed (pre post : list string) (t : string) :
  valid_sequence (pre ++ t :: post ++ ["END"]) →
  t ∈ "B" :: GAP_ROLES →
  ∃ gap u rest,
    post = (gap ++ u :: rest)%list
    ∧ Forall (λ g, g ∈ GAP_ROLES) gap
    ∧ u ∈ CONTINUATION_ROLES.
Proof.
  intros Hvalid%valid_sequence_suffix. revert t Hvalid.
  induction post as [|s post IH]; intros t Hvalid Hopen.
  - apply valid_sequence_cons in Hvalid as [H _].
    destruct (after_open _ _ Hopen H) as [Hend | Hend];
      apply list_elem_of_In in Hend; vm_compute in Hend;
      intuition discriminate.
  - apply valid_sequence_cons in Hvalid as [H Hvalid].
    destruct (after_open _ _ Hopen H) as [Hs | Hs].
    + destruct (IH s Hvalid) as (gap & u & rest & -> & Hgap & Hu);
        [by right|].
      exists (s :: gap), u, rest. split; [done|]. split; [|done].
      by constructor.
    + exists [], s, post. split; [done|]. split; [constructor | done].
Qed.

Lemma open_expression_is_resumed_witness :
  ∃ gap u rest,
    ["o"; "b"; "i_"; "I~"; "O"] = (gap ++ u :: rest)%list
    ∧ Forall (λ g, g ∈ GAP_ROLES) gap
    ∧ u ∈ CONTINUATION_ROLES.
Proof.
  apply (open_expression_is_resumed
           ["START"; "O"] ["o"; "b"; "i_"; "I~"; "O"] "B").
  - unfold valid_sequence. simpl. repeat constructor.
  - by left.
Defined.

(** X2. In a sequence of allowed transitions that starts with START,
    every I_, I~, o, b, i_ or i~ is preceded by a B with nothing but
    such roles in between: no continuation and no gap without an
    expression that was begun. *)
Theorem continuation_has_opener (pre post : list string) (t : string) :
  valid_sequence ("START" :: pre ++ t :: post) →
  t ∈ (CONTINUATION_ROLES ++ GAP_ROLES)%list →
  ∃ before inside,
    pre = (before ++ "B" :: inside)%list
    ∧ Forall (λ g, g ∈ (CONTINUATION_ROLES ++ GAP_ROLES)%list) inside.
Proof.
  revert t post. induction pre as [|x pre IH] using rev_ind;
    intros t post Hvalid Ht.
  - apply valid_sequence_cons in Hvalid as [H _].
    destruct (before_inside _ _ Ht H) as [? | Hstart]; [done|].
    apply list_elem_of_In in Hstart. vm_compute in Hstart.
    intuition discriminate.
  - rewrite <- app_assoc in Hvalid. simpl in Hvalid.
    pose proof (valid_sequence_step ("START" :: pre) post x t Hvalid) as H.
    destruct (before_inside _ _ Ht H) as [-> | Hx].
    + exists pre, []. split; [done | constructor].
    + destruct (IH x (t :: post) Hvalid Hx)
        as (before & inside & -> & Hinside).
      exists before, (inside ++ [x])%list. split.
      * by rewrite <- app_assoc.
      * apply Forall_app. split; [done|]. by constructor.
Qed.

Lemma continuation_has_opener_witness :
  ∃ before inside,
    ["O"; "B"; "o"; "b"; "i~"] = (before ++ "B" :: inside)%list
    ∧ Forall (λ g, g ∈ (CONTINUATION_ROLES ++ GAP_ROLES)%list) inside.
Proof.
  apply (continuation_has_opener ["O"; "B"; "o"; "b"; "i~"] ["O"] "I_").
  - unfold valid_sequence. simpl. repeat constructor.
  - by left.
Defined.

(** X3. In a sequence of allowed transitions that starts with START,
    every i_ or i~ is preceded by a b with only i_ and i~ in between. *)
Theorem inner_continuation_has_inner_begin (pre post : list string)
    (t : string) :
  valid_sequence ("START" :: pre ++ t :: post) →
  t ∈ ["i_"; "i~"] →
  ∃ before inside,
    pre = (before ++ "b" :: inside)%list
    ∧ Forall (λ g, g ∈ ["i_"; "i~"]) inside.
Proof.
  revert t post. induction pre as [|x pre IH] using rev_ind;
    intros t post Hvalid Ht.
  - apply valid_sequence_cons in Hvalid as [H _].
    destruct (before_inner_continuation _ _ Ht H) as [? | Hstart]; [done|].
    apply list_elem_of_In in Hstart. vm_compute in Hstart.
    intuition discriminate.
  - rewrite <- app_assoc in Hvalid. simpl in Hvalid.
    pose proof (valid_sequence_step ("START" :: pre) post x t Hvalid) as H.
    destruct (before_inner_continuation _ _ Ht H) as [-> | Hx].
    + exists pre, []. split; [done | constructor].
    + destruct (IH x (t :: post) Hvalid Hx)
        as (before & inside & -> & Hinside).
      exists before, (inside ++ [x])%list. split.
      * by rewrite <- app_assoc.
      * apply Forall_app. split; [done|]. by constructor.
Qed.

Lemma inner_continuation_has_inner_begin_witness :
  ∃ before inside,
    ["B"; "o"; "b"; "i_"] = (before ++ "b" :: inside)%list
    ∧ Forall (λ g, g ∈ ["i_"; "i~"]) inside.
Proof.
  apply (inner_continuation_has_inner_begin
           ["B"; "o"; "b"; "i_"] ["I_"; "END"] "i~").
  - unfold valid_sequence. simpl. repeat constructor.
  - by right; left.
Defined.

Ltac complete_with suffix :=
  exists suffix; split;
  [ eapply valid_sequence_snoc; [eassumption | eassumption |];
    unfold valid_sequence; simpl; repeat constructor
  | split; [by rewrite last_app | simpl; lia] ].

(** X4. The constraints have no dead end: a sequence of allowed
    transitions that stops at START or at one of the eight roles can be
    extended by at most three roles to one that ends with END. *)
Theorem valid_prefix_completes (seq : list string) (r : string) :
  valid_sequence seq → last seq = Some r → r ∈ "START" :: ROLES →
  ∃ suffix,
    valid_sequence (seq ++ suffix)
    ∧ last (seq ++ suffix) = Some "END"
    ∧ (length suffix ≤ 3)%nat.
Proof.
  intros Hvalid Hlast Hr. unfold ROLES in Hr.
  cases_of_elem Hr;
    [ complete_with ["O"; "END"]
    | complete_with ["END"]
    | complete_with ["I_"; "END"]
    | complete_with ["I_"; "END"]
    | complete_with ["i_"; "I_"; "END"]
    | complete_with ["END"]
    | complete_with ["I_"; "END"]
    | complete_with ["END"]
    | complete_with ["I_"; "END"] ].
Qed.

Lemma valid_prefix_completes_witness :
  ∃ suffix,
    valid_sequence (["START"; "B"; "o"; "b"] ++ suffix)
    ∧ last (["START"; "B"; "o"; "b"] ++ suffix) = Some "END"
    ∧ (length suffix ≤ 3)%nat.
Proof.
  apply (valid_prefix_completes ["START"; "B"; "o"; "b"] "b").
  - unfold valid_sequence. simpl. repeat constructor.
  - reflexivity.
  - apply list_elem_of_In. simpl. tauto.
Defined.

(** ** More on loops and comprehensions *)

Lemma for_each_ext {A S : Type} (xs : list A) (body body' : A → S → result S)
    (s : S) :
  (∀ x s', x ∈ xs → body x s' = body' x s') →
  for_each xs body s = for_each xs body' s.
Proof.
  revert s. induction xs as [|x xs IH]; intros s Hbody; simpl; [done|].
  rewrite Hbody by left. destruct (body' x s) as [s'|e]; simpl; [|done].
  apply IH. intros y s'' Hy. apply Hbody. by right.
Qed.

Lemma for_each_fmap {A B S : Type} (f : A → B) (xs : list A)
    (body : B → S → result S) (s : S) :
  for_each (f <$> xs) body s = for_each xs (λ x, body (f x)) s.
Proof.
  revert s. induction xs as [|x xs IH]; intros s; csimpl; [done|].
  destruct (body (f x) s) as [s'|e]; simpl; [apply IH | done].
Qed.

Lemma for_each_unchanged {A S : Type} (xs : list A) (body : A → S → result S)
    (s s' : S) :
  (∀ x s1 s2, x ∈ xs → body x s1 = Return s2 → s2 = s1) →
  for_each xs body s = Return s' → s' = s.
Proof.
  revert s. induction xs as [|x xs IH]; intros s Hbody; simpl.
  - by intros [= <-].
  - destruct (body x s) as [s1|e] eqn:Hb; simpl; [|done].
    intros Hrest. apply IH in Hrest; [|intros y ? ? Hy; apply Hbody; by right].
    subst s'. eapply Hbody; [by left | done].
Qed.

Lemma comprehension_fmap {A B : Type} (f : A → result B) (g : A → B)
    (xs : list A) :
  (∀ x, x ∈ xs → f x = Return (g x)) →
  comprehension f xs = Return (g <$> xs).
Proof.
  induction xs as [|x xs IH]; intros Hf; csimpl; [done|].
  rewrite Hf by left. simpl. rewrite IH; [done|].
  intros y Hy. apply Hf. by right.
Qed.


(** ** Labels cut down to their roles *)

Lemma first_component_cons (c : ascii) (rest : string) :
  first_component (String c rest)
  = if Ascii.eqb c "-" then EmptyString
    else String c (first_component rest).
Proof.
  unfold first_component. simpl. destruct (Ascii.eqb c "-"); [done|].
  pose proof (split_nonempty "-" rest) as Hne.
  by destruct (Py.split "-" rest).
Qed.

Lemma first_component_idem (label : string) :
  first_component (first_component label) = first_component label.
Proof.
  induction label as [|c rest IH]; [done|].
  rewrite first_component_cons. destruct (Ascii.eqb c "-") eqn:Hc; [done|].
  by rewrite first_component_cons, Hc, IH.
Qed.

Lemma role_of_idem (label : string) : role_of (role_of label) = role_of label.
Proof.
  unfold role_of. destruct (Py.elem label ["START"; "END"]) eqn:Hb.
  - by rewrite Hb.
  - destruct (Py.elem (first_component label) ["START"; "END"]); [done|].
    apply first_component_idem.
Qed.

Lemma role_labels_with_boundaries (labels : list (Z * string)) :
  labels_with_boundaries (role_labels labels)
  = prod_map id role_of <$> labels_with_boundaries labels.
Proof.
  unfold labels_with_boundaries, role_labels.
  by rewrite fmap_app, length_fmap.
Qed.

(** X5. [streusle_allowed_transitions] looks at the role of a label and
    at nothing else: cutting every label down to its first component
    changes neither the list returned nor the error raised.  In
    particular the lexcats of a b- label and of the i_ or i~ label
    after it are not compared. *)
Theorem transitions_depend_on_roles (labels : list (Z * string)) :
  streusle_allowed_transitions (role_labels labels)
  = streusle_allowed_transitions labels.
Proof.
  unfold streusle_allowed_transitions.
  rewrite role_labels_with_boundaries, for_each_fmap.
  apply for_each_ext. intros [i from_label] allowed _. simpl.
  rewrite !tag_of_role_of, role_of_idem. simpl.
  rewrite for_each_fmap. apply for_each_ext.
  intros [j to_label] allowed' _. simpl.
  by rewrite !tag_of_role_of, role_of_idem.
Qed.

(** ** The content of the table *)

(** X6. The table returned by [get_upos_allowed_lexcats] has the 17 tags
    of [ALL_UPOS] as its keys and holds exactly the 26 pairs listed; PP
    is allowed under no tag. *)
Theorem allowed_lexcats_table :
  (∀ u : string, is_Some (get_upos_allowed_lexcats !! u) ↔ u ∈ ALL_UPOS)
  ∧ ∀ u l : string,
      l ∈ entry get_upos_allowed_lexcats u
      ↔ (u, l) ∈ [("X", "X"); ("INTJ", "INTJ"); ("VERB", "V");
                  ("ADV", "ADV"); ("ADV", "P"); ("ADV", "DISC");
                  ("CCONJ", "CCONJ"); ("PUNCT", "PUNCT");
                  ("ADP", "P"); ("ADP", "DISC"); ("NOUN", "N");
                  ("SYM", "SYM"); ("ADJ", "ADJ"); ("PROPN", "N");
                  ("DET", "DET"); ("PART", "POSS"); ("PART", "ADV");
                  ("PRON", "PRON"); ("PRON", "PRON.POSS");
                  ("SCONJ", "SCONJ"); ("SCONJ", "P"); ("SCONJ", "DISC");
                  ("SCONJ", "INF.P"); ("SCONJ", "INF");
                  ("NUM", "NUM"); ("AUX", "AUX")].
Proof.
  split.
  - intros u. rewrite table_is_Some. split; [by intros [? _]|].
    intros Hu. split; [done|]. by apply some_lexcat_allowed.
  - intros u l. rewrite table_entry.
    match goal with |- _ ↔ _ ∈ ?ps => set (pairs := ps) end.
    assert (Hsound : forallb (λ p, Py.elem p.2 ALL_LEXCATS
                                   && Py.elem p.1 ALL_UPOS
                                   && is_allowed p.1 p.2) pairs = true)
      by (by vm_compute).
    assert (Hcomplete :
      forallb (λ u', forallb (λ l', implb (is_allowed u' l')
                                          (pair_elem (u', l') pairs))
                             ALL_LEXCATS) ALL_UPOS = true)
      by (by vm_compute).
    rewrite forallb_forall in Hsound, Hcomplete. split.
    + intros (Hl & Hu & Hallowed).
      apply list_elem_of_In in Hl, Hu.
      specialize (Hcomplete u Hu). rewrite forallb_forall in Hcomplete.
      specialize (Hcomplete l Hl). rewrite Hallowed in Hcomplete.
      by apply pair_elem_true.
    + intros Hin. apply list_elem_of_In, Hsound in Hin. simpl in Hin.
      apply andb_true_iff in Hin as [[Hl Hu]%andb_true_iff Hallowed].
      by rewrite <- !elem_true.
Qed.

(** ** Lexcats outside the vocabulary *)

(** The masks of a vocabulary: one for each tag of [ALL_UPOS] and for no
    other string. *)
Lemma label_masks (labels : list (Z * string)) :
  vocabulary_indexed labels →
  ∃ masks, upos_to_label_mask labels = Return masks
    ∧ (∀ u, u ∉ ALL_UPOS → masks !! u = None)
    ∧ ∀ u, u ∈ ALL_UPOS →
        ∃ mask, masks !! u = Some mask ∧ length mask = length labels
          ∧ ∀ i label, (i, label) ∈ labels →
              mask !! Z.to_nat i
              = Some (if passes get_upos_allowed_lexcats u label
                      then 1%Q else 0%Q).
Proof.
  intros Hvocab. unfold upos_to_label_mask.
  set (table := get_upos_allowed_lexcats).
  set (h := λ u, match upos_label_mask table labels u with
                 | Return m => m
                 | Raise _ => []
                 end).
  destruct (for_each_insert ALL_UPOS (upos_label_mask table labels) h ∅)
    as (masks & Hrun & Hlookup).
  { intros u Hu.
    destruct (proj2 (proj2 every_upos_entry) u Hu) as (lexcats & Hl & _).
    destruct (label_mask_spec table labels u lexcats Hvocab Hl)
      as (mask & Hmask & _).
    unfold h. by rewrite Hmask. }
  exists masks. split; [exact Hrun|]. split.
  - intros u Hu. by rewrite Hlookup, decide_False.
  - intros u Hu.
    destruct (proj2 (proj2 every_upos_entry) u Hu) as (lexcats & Hl & _).
    destruct (label_mask_spec table labels u lexcats Hvocab Hl)
      as (mask & Hmask & Hlen & Hspec).
    exists mask. split.
    { rewrite Hlookup, decide_True by done. unfold h. by rewrite Hmask. }
    split; [exact Hlen | exact Hspec].
Qed.

Lemma prefixed_label_has_lexcat (label : string) :
  Py.startswith label "O-" = true ∨ Py.startswith label "o-" = true →
  Nat.eqb (length (Py.split "-" label)) 1 = false.
Proof.
  intros [H | H]; apply startswith_spec in H as [back ->].
  - change ("O-" +:+ back) with (String "O" (String "-" back)). simpl.
    pose proof (split_nonempty "-" back). by destruct (Py.split "-" back).
  - change ("o-" +:+ back) with (String "o" (String "-" back)). simpl.
    pose proof (split_nonempty "-" back). by destruct (Py.split "-" back).
Qed.

(** X7. A label that starts with O- or o- and whose lexcat is not one
    of [ALL_LEXCATS] is masked under every UPOS, also when the lexcat
    ends with the two characters that [is_allowed] accepts for every
    UPOS: the table is built over [ALL_LEXCATS] only. *)
Theorem unknown_lexcat_is_masked (labels : list (Z * string)) (upos : string)
    (i : Z) (label : string) :
  vocabulary_indexed labels → upos ∈ ALL_UPOS → (i, label) ∈ labels →
  Py.startswith label "O-" = true ∨ Py.startswith label "o-" = true →
  lexcat_of label ∉ ALL_LEXCATS →
  ∃ (masks : gmap string (list Q)) (mask : list Q),
    upos_to_label_mask labels = Return masks
    ∧ masks !! upos = Some mask
    ∧ mask !! Z.to_nat i = Some 0%Q.
Proof.
  intros Hvocab Hupos Hin Hprefix Hlexcat.
  destruct (label_masks labels Hvocab) as (masks & Hrun & _ & Hmasks).
  destruct (Hmasks upos Hupos) as (mask & Hmask & _ & Hspec).
  exists masks, mask. split; [done|]. split; [done|].
  rewrite (Hspec i label Hin). unfold passes.
  rewrite (prefixed_label_has_lexcat label Hprefix).
  rewrite bool_decide_eq_false_2.
  - by destruct Hprefix as [-> | ->]; rewrite ?andb_false_r.
  - intros [? _]%table_entry. done.
Qed.

Lemma unknown_lexcat_is_masked_witness :
  ∃ (masks : gmap string (list Q)) (mask : list Q),
    upos_to_label_mask [(0, "O"); (1, "O-FOO!@-x")] = Return masks
    ∧ masks !! "NOUN" = Some mask
    ∧ mask !! Z.to_nat 1 = Some 0%Q.
Proof.
  apply (unknown_lexcat_is_masked
           [(0, "O"); (1, "O-FOO!@-x")] "NOUN" 1 "O-FOO!@-x").
  - split.
    + apply NoDup_ListNoDup. simpl.
      repeat (constructor; [simpl; intuition discriminate|]). constructor.
    + intros i label Hin. apply list_elem_of_In in Hin. simpl in Hin.
      destruct Hin as [[= <- <-] | [[= <- <-] | []]]; simpl; lia.
  - apply list_elem_of_In. vm_compute. tauto.
  - apply list_elem_of_In. simpl. tauto.
  - left. reflexivity.
  - intros H. apply list_elem_of_In in H. vm_compute in H.
    intuition discriminate.
Defined.

(** ** Construction of the model *)

(** X8. [__init__] fails with the [ValueError] of the transition
    predicate when the vocabulary holds a label whose first component is
    not a role, whether UPOS constraints are asked for or not. *)
Theorem init_rejects_invalid_role (labels : list (Z * string))
    (label_namespace : string)
    (use_upos_constraints include_start_end_transitions : bool)
    (i : Z) (label : string) :
  (i, label) ∈ labels → role_of label ∉ VALID_TAGS →
  ∃ e, init labels label_namespace use_upos_constraints
            include_start_end_transitions = Raise e
       ∧ invalid_role_error labels e.
Proof.
  intros Hin Hbad.
  destruct (transitions_raise labels i label Hin Hbad) as (e & He & Herr).
  exists e. split; [|done]. unfold init. by rewrite He.
Qed.

Lemma init_rejects_invalid_role_witness :
  ∃ e, init [(0, "@@UNKNOWN@@"); (1, "O")] "lextags" false true = Raise e
       ∧ invalid_role_error [(0, "@@UNKNOWN@@"); (1, "O")] e.
Proof.
  apply (init_rejects_invalid_role
           [(0, "@@UNKNOWN@@"); (1, "O")] "lextags" false true
           0 "@@UNKNOWN@@").
  - apply list_elem_of_In. simpl. tauto.
  - intros H. apply list_elem_of_In in H. vm_compute in H.
    intuition discriminate.
Defined.

(** ** What the batch mask can be *)

Lemma timestep_loop_unchanged (self : gmap string value) (example_index : nat)
    (num_tags : nat) (tags : list string) (m m' : tensor3) :
  (∀ u, u ∈ tags → u ∈ ALL_UPOS) →
  for_each (enumerate tags)
    (λ '(timestep_index, item) upos_constraint_mask,
       '(timestep_upos_tag, timestep_lemma) ← unpack_pair item;
       masks_attr ← getattr self "_upos_to_label_mask";
       masks ← as_masks masks_attr;
       row ← dict_getitem masks timestep_upos_tag;
       tensor_set_row upos_constraint_mask example_index
                      timestep_index row num_tags) m = Return m' →
  m' = m ∧ tags = [].
Proof.
  intros Hupos Hrun. destruct tags as [|u rest].
  - simpl in Hrun. by injection Hrun as <-.
  - destruct (proj2 (timestep_loop_raises self example_index num_tags
                       (u :: rest) m Hupos)) as [e He]; [done|].
    congruence.
Qed.

Lemma sentinel_once : (1 * SENTINEL)%Q = SENTINEL.
Proof. by vm_compute. Qed.

(** X9. Whenever [get_upos_constraint_mask] returns on UPOS tags of
    [ALL_UPOS], what it returns is the tensor of shape (batch size,
    longest sentence, [num_tags]) filled with -1e32, no row of which was
    set, and no sentence paired with a lemma list has a token. *)
Theorem constraint_mask_only_sentinels (self : gmap string value) (n : Z)
    (batch_upos_tags batch_lemmas : list (list string)) (m : tensor3) :
  self !! "num_tags" = Some (VInt n) →
  (∀ tags u, tags ∈ batch_upos_tags → u ∈ tags → u ∈ ALL_UPOS) →
  get_upos_constraint_mask self batch_upos_tags batch_lemmas = Return m →
  ∃ longest,
    max_by_len batch_upos_tags = Return longest
    ∧ m = replicate (length batch_upos_tags)
            (replicate (length longest)
               (replicate (Z.to_nat n) SENTINEL))
    ∧ ∀ tags lemmas, (tags, lemmas) ∈ zip batch_upos_tags batch_lemmas →
                     tags = [].
Proof.
  intros Hnum Hupos. unfold get_upos_constraint_mask, getattr.
  rewrite Hnum.
  destruct (max_by_len batch_upos_tags) as [longest|e]; [|done].
  cbn [mbind result_bind as_size]. intros Hrun.
  exists longest. split; [done|]. split.
  - apply for_each_unchanged in Hrun.
    + rewrite Hrun, sentinel_once. reflexivity.
    + intros [k [tags lemmas]] m1 m2 Hin Hbody.
      apply enumerate_elem, elem_of_zip_l in Hin.
      eapply timestep_loop_unchanged; [|exact Hbody].
      intros u Hu. by eapply Hupos.
  - intros tags lemmas Hin.
    destruct tags as [|u rest]; [done|]. exfalso.
    match type of Hrun with
    | for_each ?xs ?body ?m0 = _ =>
        destruct (for_each_raises (λ _, True) xs body m0) as (e & He & _)
    end; [done| |congruence].
    apply list_elem_of_lookup_1 in Hin as [k Hk].
    exists (k, (u :: rest, lemmas)). split.
    + by apply (elem_of_lookup_imap_2 (λ i x, (i, x))).
    + intros m1. apply timestep_loop_raises; [|done].
      intros u' Hu'. apply (Hupos (u :: rest) u'); [|done].
      apply list_elem_of_lookup_2 in Hk. by apply elem_of_zip_l in Hk.
Qed.

Lemma constraint_mask_only_sentinels_witness :
  ∃ longest,
    max_by_len [["DET"; "NOUN"]; ["VERB"]] = Return longest
    ∧ [[[SENTINEL; SENTINEL]; [SENTINEL; SENTINEL]];
       [[SENTINEL; SENTINEL]; [SENTINEL; SENTINEL]]]
      = replicate (length [["DET"; "NOUN"]; ["VERB"]])
          (replicate (length longest) (replicate (Z.to_nat 2) SENTINEL))
    ∧ ∀ tags lemmas,
        (tags, lemmas)
        ∈ zip [["DET"; "NOUN"]; ["VERB"]] ([] : list (list string)) →
        tags = [].
Proof.
  apply (constraint_mask_only_sentinels (<["num_tags" := VInt 2]> ∅) 2
           [["DET"; "NOUN"]; ["VERB"]] []).
  - reflexivity.
  - intros tags u Htags Hu. apply list_elem_of_In in Htags. simpl in Htags.
    destruct Htags as [<- | [<- | []]]; apply list_elem_of_In in Hu;
      simpl in Hu; apply list_elem_of_In; vm_compute; intuition.
  - vm_compute. reflexivity.
Defined.

(** ** The forward pass with and without UPOS constraints *)




(** X11. A model built with [use_upos_constraints = False] decodes the
    logits of the projection layer as they are, with a CRF that holds
    the transitions of [streusle_allowed_transitions] over the
    vocabulary; the output has the mask, the tags and the tokens, and
    neither constrained logits nor UPOS tags. *)
Theorem forward_without_upos_constraints {Tokens : Type}
    (get_text_field_mask : Tokens → list (list bool))
    (tag_projection : gmap string value → Tokens → tensor3)
    (replace_masked_values : tensor3 → tensor3 → Q → tensor3)
    (viterbi_tags : value → tensor3 → list (list bool) → list (list Z * Q))
    (labels : list (Z * string)) (label_namespace : string)
    (include_start_end_transitions : bool) (self : gmap string value)
    (tokens : Tokens) (metadata : list (gmap string (list string))) :
  init labels label_namespace false include_start_end_transitions
  = Return self →
  (∀ instance_metadata,
     instance_metadata ∈ metadata → is_Some (instance_metadata !! "tokens")) →
  ∃ constraints,
    streusle_allowed_transitions labels = Return constraints
    ∧ forward get_text_field_mask tag_projection replace_masked_values
              viterbi_tags self tokens metadata
      = Return {|
          out_mask := get_text_field_mask tokens;
          out_tags :=
            (viterbi_tags
               (VCrf (Z.of_nat (length labels)) constraints
                     include_start_end_transitions)
               (tag_projection self tokens)
               (get_text_field_mask tokens)).*1;
          out_tokens :=
            (λ instance_metadata,
               default [] (instance_metadata !! "tokens")) <$> metadata;
          out_constrained_logits := None;
          out_upos_tags := None |}.
Proof.
  intros Hinit Htokens. unfold init in Hinit.
  destruct (streusle_allowed_transitions labels) as [constraints|];
    [|done].
  cbn [mbind result_bind] in Hinit. injection Hinit as <-.
  exists constraints. split; [done|].
  unfold forward, getattr.
  rewrite (comprehension_fmap _
             (λ instance_metadata : gmap string (list string),
                default [] (instance_metadata !! "tokens"))).
  - by simplify_map_eq.
  - intros instance Hin. destruct (Htokens instance Hin) as [toks Htoks].
    unfold dict_getitem. by rewrite Htoks.
Qed.

Lemma forward_without_upos_constraints_witness :
  ∃ constraints,
    streusle_allowed_transitions [(0, "O"); (1, "B-N-n.person")]
    = Return constraints
    ∧ forward (Tokens := list string) (λ _, [[true]]) (λ _ _, [[[0%Q; 1%Q]]])
        (λ logits _ _, logits) (λ _ logits _, [([0], 1%Q)])
        (match init [(0, "O"); (1, "B-N-n.person")] "labels" false true with
         | Return self => self
         | Raise _ => ∅
         end)
        ["dog"] [ {[ "tokens" := ["dog"] ]} ]
      = Return {|
          out_mask := [[true]];
          out_tags := [[0]];
          out_tokens := [["dog"]];
          out_constrained_logits := None;
          out_upos_tags := None |}.
Proof.
  apply (forward_without_upos_constraints (Tokens := list string)
           (λ _, [[true]]) (λ _ _, [[[0%Q; 1%Q]]])
           (λ logits _ _, logits) (λ _ logits _, [([0], 1%Q)])
           [(0, "O"); (1, "B-N-n.person")] "labels" true).
  - reflexivity.
  - intros instance Hin. apply list_elem_of_singleton in Hin. subst instance.
    by eexists.
Defined.

(** ** Decoding *)

Lemma comprehension_compose {A B C : Type} (f : B → result C) (g : A → B)
    (xs : list A) :
  comprehension f (g <$> xs) = comprehension (λ x, f (g x)) xs.
Proof.
  induction xs as [|x xs IH]; csimpl; [done|]. by rewrite IH.
Qed.

(** X12. [decode] replaces the tag ids by the tokens the vocabulary
    gives for them, sentence by sentence and position by position, and
    leaves every other entry of the output as it was; without an entry
    for the tags it raises a [KeyError]. *)
Theorem decode_names_the_tags
    (get_token_from_index : pyobj → value → result string)
    (self : gmap string value) (output_dict : gmap string pyobj) :
  (∀ (label_namespace : value) (ids : list (list Z)) (name : Z → string),
     self !! "label_namespace" = Some label_namespace →
     output_dict !! "tags"
     = Some (PList ((λ instance_tags, PList (PInt <$> instance_tags))
                    <$> ids)) →
     (∀ instance_tags tag,
        instance_tags ∈ ids → tag ∈ instance_tags →
        get_token_from_index (PInt tag) label_namespace
        = Return (name tag)) →
     decode get_token_from_index self output_dict
     = Return (<["tags" :=
                  PList ((λ instance_tags,
                            PList ((λ tag, PStr (name tag))
                                   <$> instance_tags)) <$> ids)]>
                 output_dict))
  ∧ (output_dict !! "tags" = None →
     decode get_token_from_index self output_dict
     = Raise (KeyError "tags")).
Proof.
  split.
  - intros label_namespace ids name Hns Htags Hname.
    unfold decode, dict_getitem. rewrite Htags.
    cbn [mbind result_bind iterate].
    rewrite comprehension_compose.
    rewrite (comprehension_fmap _
               (λ instance_tags : list Z,
                  PList ((λ tag, PStr (name tag)) <$> instance_tags))).
    + done.
    + intros instance_tags Hin. cbn [mbind result_bind iterate].
      rewrite comprehension_compose.
      rewrite (comprehension_fmap _ name).
      * cbn [mbind result_bind]. by rewrite <- list_fmap_compose.
      * intros tag Htag. unfold getattr. rewrite Hns.
        cbn [mbind result_bind]. by apply (Hname instance_tags).
  - intros Hnone. unfold decode, dict_getitem. by rewrite Hnone.
Qed.

Lemma decode_names_the_tags_witness :
  decode (λ tag _, match tag with
                   | PInt 0 => Return "O"
                   | PInt 1 => Return "B-N-n.person"
                   | _ => Raise (KeyError "tag")
                   end)
         {[ "label_namespace" := VStr "labels" ]}
         {[ "tags" := PList [PList [PInt 1; PInt 0]; PList []];
            "tokens" := PList [PList [PStr "Ann"; PStr "ran"]; PList []] ]}
  = Return (<["tags" :=
               PList ((λ instance_tags,
                         PList ((λ tag, PStr (if decide (tag = 0) then "O"
                                              else "B-N-n.person"))
                                <$> instance_tags)) <$> [[1; 0]; []])]>
              {[ "tags" := PList [PList [PInt 1; PInt 0]; PList []];
                 "tokens" := PList [PList [PStr "Ann"; PStr "ran"];
                                    PList []] ]}).
Proof.
  apply (proj1 (decode_names_the_tags _ _ _) (VStr "labels") [[1; 0]; []]
           (λ tag, if decide (tag = 0) then "O" else "B-N-n.person")).
  - reflexivity.
  - reflexivity.
  - intros instance_tags tag Hin Htag.
    apply list_elem_of_In in Hin. simpl in Hin.
    destruct Hin as [<- | [<- | []]]; apply list_elem_of_In in Htag;
      simpl in Htag; [|done].
    by destruct Htag as [<- | [<- | []]].
Defined.

(** ** The predictor *)

(** X13. [_json_to_instance] reads the keys tokens, upos_tags and
    lemmas and no other; a null UPOS or lemma entry is the same as none;
    without a tokens entry it raises a [KeyError]; with a tokens entry
    alone it hands None to the dataset reader for the UPOS tags and
    for the lemmas. *)
Theorem json_to_instance_reads_three_keys {Instance : Type}
    (text_to_instance : pyobj → pyobj → pyobj → result Instance)
    (json_dict : gmap string pyobj) :
  (∀ other : gmap string pyobj,
     other !! "tokens" = json_dict !! "tokens" →
     dict_get other "upos_tags" PNone = dict_get json_dict "upos_tags" PNone →
     dict_get other "lemmas" PNone = dict_get json_dict "lemmas" PNone →
     _json_to_instance text_to_instance other
     = _json_to_instance text_to_instance json_dict)
  ∧ (json_dict !! "tokens" = None →
     _json_to_instance text_to_instance json_dict = Raise (KeyError "tokens"))
  ∧ (∀ tokens, json_dict !! "tokens" = Some tokens →
     json_dict !! "upos_tags" = None → json_dict !! "lemmas" = None →
     _json_to_instance text_to_instance json_dict
     = text_to_instance tokens PNone PNone).
Proof.
  unfold _json_to_instance, dict_getitem. repeat split.
  - intros other -> -> ->. done.
  - by intros ->.
  - intros tokens Htokens Hupos Hlemmas. unfold dict_get.
    by rewrite Htokens, Hupos, Hlemmas.
Qed.

Lemma json_to_instance_reads_three_keys_witness :
  _json_to_instance (λ tokens upos_tags lemmas, Return (tokens, upos_tags))
    {[ "tokens" := PList [PStr "dogs"]; "upos_tags" := PNone;
       "sentence_id" := PInt 7 ]}
  = _json_to_instance (λ tokens upos_tags lemmas, Return (tokens, upos_tags))
      {[ "tokens" := PList [PStr "dogs"] ]}.
Proof.
  apply (proj1 (json_to_instance_reads_three_keys
                  (λ tokens upos_tags lemmas, Return (tokens, upos_tags))
                  {[ "tokens" := PList [PStr "dogs"] ]})); reflexivity.
Defined.

(** ** The class probabilities *)















(** ** The order in which the vocabularies are gone through *)

(** X15. The table does not depend on the order in which the two sets
    are gone through: building it over any arrangement of [ALL_LEXCATS]
    and of [ALL_UPOS] gives the dictionary [get_upos_allowed_lexcats]
    returns. *)
Theorem allowed_lexcats_order_independent (lexcats uposes : list string) :
  lexcats ≡ₚ ALL_LEXCATS → uposes ≡ₚ ALL_UPOS →
  allowed_combinations_over lexcats uposes = get_upos_allowed_lexcats.
Proof.
  intros Hlexcats Huposes. apply map_eq. intros u.
  set (table := allowed_combinations_over lexcats uposes).
  assert (Hsome : is_Some (table !! u)
                  ↔ is_Some (get_upos_allowed_lexcats !! u)).
  { rewrite table_is_Some. unfold table, allowed_combinations_over.
    rewrite outer_loop_is_Some, lookup_empty.
    setoid_rewrite Hlexcats. rewrite Huposes.
    split; [intros [[? [=]] | ?]; done | auto]. }
  assert (Hentry : ∀ l, l ∈ entry table u
                        ↔ l ∈ entry get_upos_allowed_lexcats u).
  { intros l. rewrite table_entry. unfold table, allowed_combinations_over.
    rewrite outer_loop_entry. unfold entry at 1. rewrite lookup_empty.
    rewrite Hlexcats, Huposes. simpl. split; [|auto].
    intros [Hin | ?]; [by apply not_elem_of_empty in Hin | done]. }
  unfold entry in Hentry.
  destruct (table !! u) as [s|], (get_upos_allowed_lexcats !! u) as [s'|].
  - f_equal. apply set_eq. exact Hentry.
  - destruct (proj1 Hsome) as [? [=]]. by eexists.
  - destruct (proj2 Hsome) as [? [=]]. by eexists.
  - done.
Qed.

Lemma allowed_lexcats_order_independent_witness :
  allowed_combinations_over (reverse ALL_LEXCATS) (reverse ALL_UPOS)
  = get_upos_allowed_lexcats.
Proof.
  apply (allowed_lexcats_order_independent
           (reverse ALL_LEXCATS) (reverse ALL_UPOS));
    apply reverse_Permutation.
Defined.

Lemma vocabulary_indexed_Permutation (labels labels' : list (Z * string)) :
  labels' ≡ₚ labels → vocabulary_indexed labels → vocabulary_indexed labels'.
Proof.
  intros Hperm [Hnodup Hrange]. split.
  - by rewrite Hperm.
  - intros i label Hin. rewrite Hperm in Hin. rewrite Hperm. by eapply Hrange.
Qed.

(** Every entry of a mask: 1 where a label that passes stands, 0
    elsewhere. *)
Lemma label_mask_entries (table : gmap string (gset string))
    (labels : list (Z * string)) (upos : string) (lexcats : gset string) :
  vocabulary_indexed labels → table !! upos = Some lexcats →
  ∃ mask, upos_label_mask table labels upos = Return mask
    ∧ length mask = length labels
    ∧ ∀ k : nat,
        (mask !! k = Some 1%Q
         ∧ ∃ i l, (i, l) ∈ labels ∧ Z.to_nat i = k
                  ∧ passes table upos l = true)
        ∨ (mask !! k = replicate (length labels) 0%Q !! k
           ∧ ∀ i l, (i, l) ∈ labels → Z.to_nat i = k →
                    passes table upos l = false).
Proof.
  intros [Hnodup Hrange] Htable. unfold upos_label_mask.
  set (m0 := replicate (length labels) 0%Q).
  assert (Hm0 : length m0 = length labels) by apply length_replicate.
  destruct (for_each_writes labels
    (λ '(label_index, label) upos_label_mask,
       if Nat.eqb (length (Py.split "-" label)) 1 then
         tensor_setitem upos_label_mask label_index 1%Q
       else
         label_lexcat ← Py.getitem (Py.split "-" label) 1;
         if negb (Py.startswith label "O-")
            && negb (Py.startswith label "o-")
         then tensor_setitem upos_label_mask label_index 1%Q
         else
           lexcats ← dict_getitem table upos;
           if bool_decide (label_lexcat ∈ lexcats)
           then tensor_setitem upos_label_mask label_index 1%Q
           else Return upos_label_mask)
    (passes table upos) m0) as (mask & Hrun & Hlen & Hinv).
  - intros i l m Hin Hm. eapply mask_round; [exact Htable|].
    rewrite Hm, Hm0. by eapply Hrange.
  - intros i l Hin. rewrite Hm0. specialize (Hrange i l Hin). lia.
  - exists mask. split; [exact Hrun|]. split; [congruence | exact Hinv].
Qed.

Lemma label_mask_Permutation (table : gmap string (gset string))
    (labels labels' : list (Z * string)) (upos : string)
    (lexcats : gset string) :
  labels' ≡ₚ labels → vocabulary_indexed labels →
  table !! upos = Some lexcats →
  upos_label_mask table labels' upos = upos_label_mask table labels upos
  ∧ returns (upos_label_mask table labels upos).
Proof.
  intros Hperm Hvocab Htable.
  pose proof (vocabulary_indexed_Permutation _ _ Hperm Hvocab) as Hvocab'.
  destruct (label_mask_entries table labels upos lexcats Hvocab Htable)
    as (mask & Hmask & Hlen & Hinv).
  destruct (label_mask_entries table labels' upos lexcats Hvocab' Htable)
    as (mask' & Hmask' & Hlen' & Hinv').
  split; [|by exists mask]. rewrite Hmask, Hmask'. f_equal.
  apply list_eq. intros k.
  destruct (Hinv k) as [[-> (i & l & Hin & Hk & Hpass)] | [-> Hnone]];
    destruct (Hinv' k) as [[-> (i' & l' & Hin' & Hk' & Hpass')] | [-> Hnone']].
  - done.
  - rewrite <- Hperm in Hin. specialize (Hnone' i l Hin Hk). congruence.
  - rewrite Hperm in Hin'. specialize (Hnone i' l' Hin' Hk'). congruence.
  - by rewrite Hperm.
Qed.

(** X16. For the index-to-token mapping of a vocabulary the label
    masks depend neither on the order in which the set [ALL_UPOS] is
    gone through nor on the order of the items of the label
    dictionary. *)
Theorem label_masks_order_independent (uposes : list string)
    (labels labels' : list (Z * string)) :
  uposes ≡ₚ ALL_UPOS → labels' ≡ₚ labels → vocabulary_indexed labels →
  ∃ masks : gmap string (list Q),
    upos_to_label_mask labels = Return masks
    ∧ upos_to_label_mask_over uposes labels' = Return masks.
Proof.
  intros Huposes Hperm Hvocab.
  unfold upos_to_label_mask, upos_to_label_mask_over.
  set (table := get_upos_allowed_lexcats).
  set (h := λ u, match upos_label_mask table labels u with
                 | Return m => m
                 | Raise _ => []
                 end).
  assert (Hmask : ∀ u, u ∈ ALL_UPOS →
            upos_label_mask table labels u = Return (h u)
            ∧ upos_label_mask table labels' u = Return (h u)).
  { intros u Hu.
    destruct (proj2 (proj2 every_upos_entry) u Hu) as (lexcats & Hl & _).
    destruct (label_mask_Permutation table labels labels' u lexcats
                Hperm Hvocab Hl) as [Heq [mask Hret]].
    rewrite Heq. unfold h. rewrite Hret. split; reflexivity. }
  destruct (for_each_insert ALL_UPOS (upos_label_mask table labels) h ∅)
    as (masks & Hrun & Hlookup); [intros u Hu; by apply Hmask|].
  destruct (for_each_insert uposes (upos_label_mask table labels') h ∅)
    as (masks' & Hrun' & Hlookup').
  { intros u Hu. rewrite Huposes in Hu. by apply Hmask. }
  exists masks. split; [exact Hrun|]. rewrite Hrun'. f_equal.
  apply map_eq. intros u. rewrite Hlookup, Hlookup'.
  destruct (decide (u ∈ ALL_UPOS)) as [Hu | Hu].
  - by rewrite decide_True by (by rewrite Huposes).
  - by rewrite decide_False by (by rewrite Huposes).
Qed.

Lemma label_masks_order_independent_witness :
  ∃ masks : gmap string (list Q),
    upos_to_label_mask [(0, "O"); (1, "O-V-v.cognition"); (2, "B-N")]
    = Return masks
    ∧ upos_to_label_mask_over (reverse ALL_UPOS)
        (reverse [(0, "O"); (1, "O-V-v.cognition"); (2, "B-N")])
      = Return masks.
Proof.
  apply (label_masks_order_independent (reverse ALL_UPOS)
           [(0, "O"); (1, "O-V-v.cognition"); (2, "B-N")]
           (reverse [(0, "O"); (1, "O-V-v.cognition"); (2, "B-N")])).
  - apply reverse_Permutation.
  - apply reverse_Permutation.
  - split.
    + apply NoDup_ListNoDup. simpl.
      repeat (constructor; [simpl; intuition discriminate|]). constructor.
    + intros i label Hin. apply list_elem_of_In in Hin. simpl in Hin.
      destruct Hin as [[= <- <-] | [[= <- <-] | [[= <- <-] | []]]];
        simpl; lia.
Defined.
